(** * Counter and FloatCounter of the metrics package

    A shallow embedding of [counter.go] and [floatcounter.go].

    Every method is written once, as a finite program over the atomic
    operations it performs ([sync/atomic] calls, mutex operations, plain
    field accesses under the mutex, [time.Now().Unix()], [w.Write]).  Such
    a program is run in order for the single-goroutine properties, and
    interleaved with the programs of other goroutines, one atomic
    operation at a time, for the concurrent ones. *)

From Stdlib Require Import ZArith Lia String Ascii List QArith Qround Sorted.
From Stdlib Require Import DecimalString DecimalPos DecimalN.
From Stdlib Require Import Floats.PrimFloat Floats.SpecFloat Floats.FloatOps.
From Stdlib Require Import Floats.FloatAxioms.
From stdpp Require Import base list relations.
Import ListNotations.

Local Open Scope Z_scope.

(** ** Machine integers *)

(** [uint64] and [int64] values are integers of [Z]; every conversion and
    every addition writes its wrap-around out. *)
Module U64.

Definition modulus : Z := 2 ^ 64.

Definition max : Z := modulus - 1.

Definition in_range (x : Z) : Prop := 0 <= x < modulus.

(** What an arithmetic result becomes when it is kept in 64 bits. *)
Definition wrap (x : Z) : Z := x mod modulus.

(** [x + y] on [uint64]. *)
Definition add (x y : Z) : Z := wrap (x + y).

(** [^x] on [uint64]. *)
Definition not (x : Z) : Z := wrap (Z.lnot x).

End U64.

Module I64.

(** The two's-complement value of the low 64 bits. *)
Definition wrap (x : Z) : Z := (x + 2 ^ 63) mod 2 ^ 64 - 2 ^ 63.

End I64.

(** Go's [int] is 32 or 64 bits wide, depending on the platform. *)
Inductive int_size : Set := Int32 | Int64.

Definition int_bits (w : int_size) : Z :=
  match w with Int32 => 32 | Int64 => 64 end.

Definition int_in_range (w : int_size) (x : Z) : Prop :=
  - 2 ^ (int_bits w - 1) <= x < 2 ^ (int_bits w - 1).

(** [uint64(n)] for a signed [n] ([int] or [int64]): sign extension, then
    the same bits read as unsigned. *)
Definition uint64_of_signed (n : Z) : Z := U64.wrap n.

(** [int64(n)] for [n : int]. *)
Definition int64_of_int (n : Z) : Z := I64.wrap n.

(** ** The clock *)

(** [time.Now().Unix()] is an input of the program: [clk k] is what its
    [k]-th evaluation returns (counting from 0). *)
Definition Clock : Type := nat -> Z.

Definition monotone (clk : Clock) : Prop :=
  forall i j : nat, (i <= j)%nat -> clk i <= clk j.

(** A clock that shows another second every time it is read. *)
Definition example_clock : Clock := fun k => 1700000000 + Z.of_nat k.

(** ** Programs over atomic operations *)

Module Prog.

Section Free.

Context {E : Type -> Type}.

(** A program either returns, or performs the operation [e] and goes on
    with what the operation answered. *)
Inductive prog (A : Type) : Type :=
| Ret (a : A)
| Vis {X : Type} (e : E X) (k : X -> prog A).

Arguments Ret {A} a.
Arguments Vis {A X} e k.

Fixpoint bind {A B : Type} (p : prog A) (f : A -> prog B) : prog B :=
  match p with
  | Ret a => f a
  | Vis e k => Vis e (fun x => bind (k x) f)
  end.

Definition trigger {X : Type} (e : E X) : prog X := Vis e Ret.

Definition finished {A : Type} (p : prog A) : Prop :=
  match p with Ret _ => True | Vis _ _ => False end.

(** [ops_left p m]: whatever the operations answer, [p] returns after
    exactly [m] of them. *)
Fixpoint ops_left {A : Type} (p : prog A) (m : nat) : Prop :=
  match p with
  | Ret _ => m = 0%nat
  | Vis e k =>
      match m with
      | O => False
      | S m' => forall x, ops_left (k x) m'
      end
  end.

Section Run.

Context {S : Type}.

(** Operations that always complete. *)
Section Total.

Context (h : forall X : Type, E X -> S -> X * S).

Fixpoint run {A : Type} (p : prog A) (s : S) : A * S :=
  match p with
  | Ret a => (a, s)
  | Vis e k => let '(x, s') := h _ e s in run (k x) s'
  end.

(** One atomic operation of a goroutine. *)
Definition step_thread {A : Type} (p : prog A) (s : S)
  : option (prog A * S) :=
  match p with
  | Ret _ => None
  | Vis e k => let '(x, s') := h _ e s in Some (k x, s')
  end.

(** The goroutines of a pool take turns in any order, each turn being one
    atomic operation on the shared state. *)
Inductive pool_step {A : Type}
  : list (prog A) * S -> list (prog A) * S -> Prop :=
| pool_step_at (i : nat) (pool : list (prog A)) (p p' : prog A) (s s' : S) :
    pool !! i = Some p ->
    step_thread p s = Some (p', s') ->
    pool_step (pool, s) (<[i := p']> pool, s').

(** A schedule names the goroutine that takes each turn; the turn of a
    goroutine that is not there or has returned is skipped. *)
Definition turn {A : Type} (cfg : list (prog A) * S) (i : nat)
  : list (prog A) * S :=
  match cfg.1 !! i with
  | Some p =>
      match step_thread p cfg.2 with
      | Some (p', s') => (<[i := p']> cfg.1, s')
      | None => cfg
      end
  | None => cfg
  end.

Definition schedule {A : Type} (turns : list nat) (cfg : list (prog A) * S)
  : list (prog A) * S :=
  fold_left turn turns cfg.

End Total.

(** Operations that may block forever or crash ([None]). *)
Section Partial.

Context (h : forall X : Type, E X -> S -> option (X * S)).

Fixpoint run_opt {A : Type} (p : prog A) (s : S) : option (A * S) :=
  match p with
  | Ret a => Some (a, s)
  | Vis e k =>
      match h _ e s with
      | Some (x, s') => run_opt (k x) s'
      | None => None
      end
  end.

(** One operation of a goroutine among others: it has no turn while its
    next operation cannot complete. *)
Definition step_thread_opt {A : Type} (p : prog A) (s : S)
  : option (prog A * S) :=
  match p with
  | Ret _ => None
  | Vis e k =>
      match h _ e s with
      | Some (x, s') => Some (k x, s')
      | None => None
      end
  end.

Inductive pool_step_opt {A : Type}
  : list (prog A) * S -> list (prog A) * S -> Prop :=
| pool_step_opt_at (i : nat) (pool : list (prog A)) (p p' : prog A)
    (s s' : S) :
    pool !! i = Some p ->
    step_thread_opt p s = Some (p', s') ->
    pool_step_opt (pool, s) (<[i := p']> pool, s').

Definition turn_opt {A : Type} (cfg : list (prog A) * S) (i : nat)
  : list (prog A) * S :=
  match cfg.1 !! i with
  | Some p =>
      match step_thread_opt p cfg.2 with
      | Some (p', s') => (<[i := p']> cfg.1, s')
      | None => cfg
      end
  | None => cfg
  end.

Definition schedule_opt {A : Type} (turns : list nat)
    (cfg : list (prog A) * S) : list (prog A) * S :=
  fold_left turn_opt turns cfg.

(** How many turns of a schedule are taken, not skipped. *)
Fixpoint turns_taken {A : Type} (turns : list nat) (cfg : list (prog A) * S)
  : nat :=
  match turns with
  | [] => 0
  | i :: turns' =>
      match cfg.1 !! i with
      | Some p =>
          match step_thread_opt p cfg.2 with
          | Some _ => Datatypes.S (turns_taken turns' (turn_opt cfg i))
          | None => turns_taken turns' cfg
          end
      | None => turns_taken turns' cfg
      end
  end.

End Partial.

(** The schedule that gives each of [n] goroutines a turn, [rounds] times
    over. *)
Definition round_robin (n rounds : nat) : list nat :=
  concat (replicate rounds (seq 0 n)).

(** The goroutines of [pool] have [m] operations left to do between them. *)
Definition pool_ops_left {A : Type} (pool : list (prog A)) (m : nat)
  : Prop :=
  exists ms : list nat, Forall2 ops_left pool ms /\ sum_list ms = m.

End Run.

End Free.

Arguments prog E A : clear implicits.
Arguments Ret {E A} a.
Arguments Vis {E A X} e k.

Module Notations.
Declare Scope prog_scope.
Delimit Scope prog_scope with prog.
Notation "x <- p ;; q" := (bind p (fun x => q))
  (at level 100, p at next level, right associativity, only parsing)
  : prog_scope.
Notation "p ;; q" := (bind p (fun _ => q))
  (at level 100, right associativity, only parsing) : prog_scope.
End Notations.

End Prog.

Import Prog.Notations.

(** ** Formatting and the writer *)

Definition newline : string := String "010"%char EmptyString.

(** Modelled from the spec: the verb [%d] of [fmt] on a [uint64], which
    belongs to Go's standard library and is not part of this repository:
    the decimal digits of the number, without a sign. *)
Definition fmt_d (v : Z) : string :=
  NilZero.string_of_uint (N.to_uint (Z.to_N v)).

(** What [fmt.Fprintf(w, "%s %d\n", prefix, v)] hands to [w.Write], in one
    call. *)
Definition sprintf_s_d (prefix : string) (v : Z) : string :=
  (prefix ++ " " ++ fmt_d v ++ newline)%string.

(** Modelled from the spec: the verb [%g] of [fmt] on a [float64], which
    belongs to Go's standard library and is not part of this repository.
    The spec calls it the general format with the shortest representation
    that reads back as the same number ([123.456], [1e+10]).  As in
    [strconv], the digits are the fewest that identify the float64 among
    its neighbours (the nearest such decimal when there are several), and
    they are laid out with an exponent when the decimal exponent is below
    -4 or at least 6 (the precision 6 that [%g] takes for the shortest
    representation), and without one otherwise. *)
Module Ftoa.

Definition pow2 (e : Z) : Q := Qpower (2 # 1) e.

Definition pow10 (e : Z) : Q := Qpower (10 # 1) e.

Definition Qlt_bool (x y : Q) : bool := negb (Qle_bool y x).

(** The float64 with mantissa [m] and exponent [e]: [m * 2^e]. *)
Definition value (m : positive) (e : Z) : Q :=
  (inject_Z (Z.pos m) * pow2 e)%Q.

(** Halfway to the next float64 below; the gap below a power of two is
    half the gap above it. *)
Definition lower (m : positive) (e : Z) : Q :=
  if (Z.pos m =? 2 ^ 52) && (-1074 <? e)
  then (inject_Z (4 * Z.pos m - 1) * pow2 (e - 2))%Q
  else (inject_Z (2 * Z.pos m - 1) * pow2 (e - 1))%Q.

(** Halfway to the next float64 above. *)
Definition upper (m : positive) (e : Z) : Q :=
  (inject_Z (2 * Z.pos m + 1) * pow2 (e - 1))%Q.

(** Whether the decimal [x] is read as this float64: the halfway points
    count when the mantissa is even (round to nearest even). *)
Definition reads_back (m : positive) (e : Z) (x : Q) : bool :=
  if Z.even (Z.pos m)
  then Qle_bool (lower m e) x && Qle_bool x (upper m e)
  else Qlt_bool (lower m e) x && Qlt_bool x (upper m e).

Fixpoint dp_up (fuel : nat) (v : Q) (dp : Z) : Z :=
  match fuel with
  | O => dp
  | S fuel' => if Qle_bool (pow10 dp) v then dp_up fuel' v (dp + 1) else dp
  end.

Fixpoint dp_down (fuel : nat) (v : Q) (dp : Z) : Z :=
  match fuel with
  | O => dp
  | S fuel' =>
      if Qlt_bool v (pow10 (dp - 1)) then dp_down fuel' v (dp - 1) else dp
  end.

(** The [dp] with [10^(dp-1) <= v < 10^dp]; a float64 lies between
    [10^-324] and [10^309]. *)
Definition decimal_point (v : Q) : Z := dp_down 400 v (dp_up 400 v 0).

(** The decimal [c * 10^(dp-nd)] of [nd] digits that reads back as the
    float64, if there is one. *)
Definition candidate (m : positive) (e : Z) (dp nd : Z) : option Z :=
  let v := value m e in
  let scale := pow10 (dp - nd) in
  let down := Qfloor (v / scale) in
  let up := down + 1 in
  let okdown := reads_back m e (inject_Z down * scale) in
  let okup := reads_back m e (inject_Z up * scale) in
  match okdown, okup with
  | false, false => None
  | true, false => Some down
  | false, true => Some up
  | true, true =>
      match (2 * v ?= inject_Z (down + up) * scale)%Q with
      | Lt => Some down
      | Gt => Some up
      | Eq => Some (if Z.even down then down else up)
      end
  end.

(** The first number of digits, from [nd] on, that has a candidate; 17
    digits always do. *)
Fixpoint shortest_from (fuel : nat) (m : positive) (e : Z) (dp nd : Z)
  : Z * Z :=
  match fuel with
  | O => (Qfloor (value m e / pow10 (dp - nd)), dp - nd)
  | S fuel' =>
      match candidate m e dp nd with
      | Some c => (c, dp - nd)
      | None => shortest_from fuel' m e dp (nd + 1)
      end
  end.

(** Without the zeros at the end. *)
Fixpoint rstrip0 (s : string) : string :=
  match s with
  | EmptyString => EmptyString
  | String a s' =>
      match rstrip0 s' with
      | EmptyString =>
          if Ascii.eqb a "0" then EmptyString else String a EmptyString
      | r => String a r
      end
  end.

Fixpoint zeros (k : nat) : string :=
  match k with O => EmptyString | S k' => String "0" (zeros k') end.

Definition len (s : string) : Z := Z.of_nat (String.length s).

(** The digits [ds], read as [0.ds * 10^dp], the way [%e] lays them out. *)
Definition fmtE (ds : string) (dp : Z) : string :=
  let exp := dp - 1 in
  let mant :=
    match ds with
    | EmptyString => "0"%string
    | String a EmptyString => String a EmptyString
    | String a rest => String a ("." ++ rest)
    end in
  let sign := if exp <? 0 then "-"%string else "+"%string in
  let pad := if Z.abs exp <? 10 then "0"%string else EmptyString in
  (mant ++ "e" ++ sign ++ pad ++ fmt_d (Z.abs exp))%string.

(** The same digits the way [%f] lays them out, with as many decimals as
    there are digits after the point. *)
Definition fmtF (ds : string) (dp : Z) : string :=
  let nd := len ds in
  if dp <=? 0 then ("0." ++ zeros (Z.to_nat (- dp)) ++ ds)%string
  else if dp <? nd then
    (substring 0 (Z.to_nat dp) ds ++ "." ++
     substring (Z.to_nat dp) (Z.to_nat (nd - dp)) ds)%string
  else (ds ++ zeros (Z.to_nat (dp - nd)))%string.

Definition fmt_finite (m : positive) (e : Z) : string :=
  let dp0 := decimal_point (value m e) in
  let '(c, k) := shortest_from 17 m e dp0 1 in
  let ds0 := fmt_d c in
  let dp := len ds0 + k in
  let ds := rstrip0 ds0 in
  let exp := dp - 1 in
  if (exp <? -4) || (6 <=? exp) then fmtE ds dp else fmtF ds dp.

(** Modelled from the spec: [%g] of [fmt] (Go's standard library, not part
    of this repository) on any float64; [fmt] writes the infinities with
    their sign and zero with the sign it has. *)
Definition fmt_g (f : float) : string :=
  match Prim2SF f with
  | S754_nan => "NaN"%string
  | S754_infinity false => "+Inf"%string
  | S754_infinity true => "-Inf"%string
  | S754_zero false => "0"%string
  | S754_zero true => "-0"%string
  | S754_finite s m e =>
      ((if s then "-" else "") ++ fmt_finite m e)%string
  end.

End Ftoa.

(** What [fmt.Fprintf(w, "%s %g\n", prefix, v)] hands to [w.Write], in one
    call. *)
Definition sprintf_s_g (prefix : string) (v : float) : string :=
  (prefix ++ " " ++ Ftoa.fmt_g v ++ newline)%string.

(** ** counter.go *)

Module Counter.

Import Prog.

(** [type Counter struct { n uint64; lastWriteTime int64 }] *)
Record Counter : Type := mkCounter {
  n : Z;
  lastWriteTime : Z
}.

(** A counter as the registry hands it out: Go's zero value. *)
Definition new : Counter := {| n := 0; lastWriteTime := 0 |}.

(** What a goroutine running a method acts on: the counter [c], the clock
    (how often it has been read so far) and the calls made to the
    [io.Writer], oldest first. *)
Record state : Type := mkState {
  c : Counter;
  clock_reads : nat;
  written : list string
}.

Definition init (c0 : Counter) : state :=
  {| c := c0; clock_reads := 0; written := [] |}.

(** The atomic operations the methods of [Counter] are made of. *)
Inductive event : Type -> Type :=
| AddUint64_n (delta : Z) : event Z
    (* atomic.AddUint64(&c.n, delta) *)
| LoadUint64_n : event Z
    (* atomic.LoadUint64(&c.n) *)
| StoreUint64_n (v : Z) : event unit
    (* atomic.StoreUint64(&c.n, v) *)
| StoreInt64_lastWriteTime (v : Z) : event unit
    (* atomic.StoreInt64(&c.lastWriteTime, v) *)
| LoadInt64_lastWriteTime : event Z
    (* atomic.LoadInt64(&c.lastWriteTime) *)
| TimeNowUnix : event Z
    (* time.Now().Unix() *)
| Write (p : string) : event unit.
    (* w.Write(p) *)

Definition set_c (s : state) (c' : Counter) : state :=
  {| c := c'; clock_reads := clock_reads s; written := written s |}.

Definition handle (clk : Clock) (X : Type) (e : event X) (s : state)
  : X * state :=
  match e in event X return X * state with
  | AddUint64_n delta =>
      let v := U64.add (n (c s)) delta in
      (v, set_c s {| n := v; lastWriteTime := lastWriteTime (c s) |})
  | LoadUint64_n => (n (c s), s)
  | StoreUint64_n v =>
      (tt, set_c s {| n := v; lastWriteTime := lastWriteTime (c s) |})
  | StoreInt64_lastWriteTime v =>
      (tt, set_c s {| n := n (c s); lastWriteTime := v |})
  | LoadInt64_lastWriteTime => (lastWriteTime (c s), s)
  | TimeNowUnix =>
      (clk (clock_reads s),
       {| c := c s; clock_reads := S (clock_reads s); written := written s |})
  | Write p =>
      (tt,
       {| c := c s; clock_reads := clock_reads s;
          written := written s ++ [p] |})
  end.

(** The state with the value [v], the clock read once more and its reading
    in [lastWriteTime]. *)
Definition stamped (clk : Clock) (s : state) (v : Z) : state :=
  {| c := {| n := v; lastWriteTime := clk (clock_reads s) |};
     clock_reads := S (clock_reads s);
     written := written s |}.

Local Open Scope prog_scope.

(** [func (c *Counter) Inc()] *)
Definition Inc : prog event unit :=
  trigger (AddUint64_n 1) ;;
  Ret tt.

(** [func (c *Counter) Dec()] *)
Definition Dec : prog event unit :=
  trigger (AddUint64_n (U64.not 0)) ;;
  t <- trigger TimeNowUnix ;;
  trigger (StoreInt64_lastWriteTime t).

(** [func (c *Counter) Add(n int)] *)
Definition Add (n : Z) : prog event unit :=
  trigger (AddUint64_n (uint64_of_signed n)) ;;
  t <- trigger TimeNowUnix ;;
  trigger (StoreInt64_lastWriteTime t).

(** [func (c *Counter) AddInt64(n int64)] *)
Definition AddInt64 (n : Z) : prog event unit :=
  trigger (AddUint64_n (uint64_of_signed n)) ;;
  t <- trigger TimeNowUnix ;;
  trigger (StoreInt64_lastWriteTime t).

(** [func (c *Counter) Get() uint64] *)
Definition Get : prog event Z :=
  trigger LoadUint64_n.

(** [func (c *Counter) Set(n uint64)] ([Set] itself is reserved). *)
Definition Set_ (n : Z) : prog event unit :=
  trigger (StoreUint64_n n) ;;
  t <- trigger TimeNowUnix ;;
  trigger (StoreInt64_lastWriteTime t).

(** [func (c *Counter) getLastWriteTime() int64] *)
Definition getLastWriteTime : prog event Z :=
  trigger LoadInt64_lastWriteTime.

(** [func (c *Counter) marshalTo(prefix string, w io.Writer)] *)
Definition marshalTo (prefix : string) : prog event unit :=
  v <- Get ;;
  trigger (Write (sprintf_s_d prefix v)).

(** [func (c *Counter) metricType() string] *)
Definition metricType : prog event string :=
  Ret "counter"%string.

(** *** Sequences of calls *)

(** A call of one of the exported methods. *)
Inductive call : Type :=
| CallInc
| CallDec
| CallAdd (n : Z)
| CallAddInt64 (n : Z)
| CallSet (n : Z)
| CallGet.

Definition call_prog (k : call) : prog event unit :=
  match k with
  | CallInc => Inc
  | CallDec => Dec
  | CallAdd n => Add n
  | CallAddInt64 n => AddInt64 n
  | CallSet n => Set_ n
  | CallGet => Get ;; Ret tt
  end.

(** The calls that add to the counter, and by how much as a signed number. *)
Definition delta (k : call) : option Z :=
  match k with
  | CallInc => Some 1
  | CallDec => Some (-1)
  | CallAdd n => Some n
  | CallAddInt64 n => Some n
  | CallSet _ => None
  | CallGet => None
  end.

Definition adds (k : call) : Prop := is_Some (delta k).

Definition delta_of (k : call) : Z := default 0 (delta k).

Definition sumZ (l : list Z) : Z := foldr Z.add 0 l.

Definition total_delta (ks : list call) : Z := sumZ (map delta_of ks).

(** The timestamp is at most what the clock shows. *)
Definition not_ahead (clk : Clock) (s : state) : Prop :=
  lastWriteTime (c s) <= clk (clock_reads s).

(** The calls that store the time: all but [Inc] and [Get]. *)
Definition stamps (k : call) : Prop :=
  match k with
  | CallDec | CallAdd _ | CallAddInt64 _ | CallSet _ => True
  | CallInc | CallGet => False
  end.

(** A goroutine making the calls [ks] one after the other. *)
Fixpoint goroutine (ks : list call) : prog event unit :=
  match ks with
  | [] => Ret tt
  | k :: ks' => call_prog k ;; goroutine ks'
  end.

(** The same goroutine, reading [getLastWriteTime()] after every call and
    returning what it read, oldest first. *)
Fixpoint watch (ks : list call) : prog event (list Z) :=
  match ks with
  | [] => Ret []
  | k :: ks' =>
      call_prog k ;;
      t <- getLastWriteTime ;;
      ts <- watch ks' ;;
      Ret (t :: ts)
  end.

(** How many atomic operations a call is made of. *)
Definition atomic_ops (k : call) : nat :=
  match k with
  | CallInc | CallGet => 1
  | CallDec | CallAdd _ | CallAddInt64 _ | CallSet _ => 3
  end.

(** Three goroutines whose adds sum up to -3. *)
Definition example_threads : list (list call) :=
  [[CallDec]; [CallInc; CallAdd (- 4)]; [CallAddInt64 1]].

(** What the adds still to be done by a goroutine amount to, modulo 2^64. *)
Fixpoint pending (p : prog event unit) (d : Z) : Prop :=
  match p with
  | Ret _ => U64.wrap d = 0
  | Vis e k =>
      match e in event X return (X -> Z -> Prop) -> Prop with
      | AddUint64_n a => fun K => forall x, K x (d - a)
      | StoreUint64_n _ => fun _ => False
      | _ => fun K => forall x, K x d
      end (fun x => pending (k x))
  end.

(** How many atomic operations a goroutine still has to do. *)
Fixpoint remaining (p : prog event unit) (m : nat) : Prop :=
  match p with
  | Ret _ => m = 0%nat
  | Vis e k =>
      match m with
      | O => False
      | S m' => forall x, remaining (k x) m'
      end
  end.

(** [stamped_by p t]: a timestamp that [p] stores is the time it has read
    last, [t] being the one read so far. *)
Fixpoint stamped_by (p : prog event unit) (t : option Z) : Prop :=
  match p with
  | Ret _ => True
  | Vis e k =>
      match e in event X return (X -> option Z -> Prop) -> Prop with
      | StoreInt64_lastWriteTime v => fun K => t = Some v /\ forall x, K x t
      | TimeNowUnix => fun K => forall x, K x (Some x)
      | _ => fun K => forall x, K x t
      end (fun x => stamped_by (k x))
  end.

(** The timestamp of the counter and the times that the goroutines have
    read and not stored yet are at most what the clock shows. *)
Definition none_ahead (clk : Clock)
    (cfg : list (prog event unit) * state) : Prop :=
  not_ahead clk cfg.2 /\
  exists ts : list (option Z),
    Forall2 stamped_by cfg.1 ts /\
    Forall (fun t => forall v, t = Some v -> v <= clk (clock_reads cfg.2)) ts.

(** The goroutines of [cfg] with the counter they share keep [total] in
    balance: the value is a [uint64], and with the adds still to be done it
    amounts to [total] modulo 2^64. *)
Definition balanced (total : Z) (cfg : list (prog event unit) * state)
  : Prop :=
  exists ds : list Z,
    Forall2 pending cfg.1 ds /\
    U64.in_range (n (c cfg.2)) /\
    U64.wrap (n (c cfg.2) + sumZ ds) = total.

(** The goroutines of [cfg] have [m] atomic operations left to do between
    them. *)
Definition left_to_do (m : nat) (cfg : list (prog event unit) * state)
  : Prop :=
  exists ms : list nat, Forall2 remaining cfg.1 ms /\ sum_list ms = m.

(** The atomic operations that the goroutines making the calls [threads]
    are made of. *)
Definition total_ops (threads : list (list call)) : nat :=
  sum_list (map (fun ks => sum_list (map atomic_ops ks)) threads).

End Counter.

(** ** floatcounter.go *)

Module FloatCounter.

Import Prog.

(** [type FloatCounter struct { mu sync.Mutex; n float64; lastWriteTime
    int64 }]; [mu] is [true] while a goroutine holds the mutex. *)
Record FloatCounter : Type := mkFloatCounter {
  mu : bool;
  n : float;
  lastWriteTime : Z
}.

(** A counter as the registry hands it out: Go's zero value. *)
Definition new : FloatCounter :=
  {| mu := false; n := 0%float; lastWriteTime := 0 |}.

Record state : Type := mkState {
  fc : FloatCounter;
  clock_reads : nat;
  written : list string
}.

Definition init (fc0 : FloatCounter) : state :=
  {| fc := fc0; clock_reads := 0; written := [] |}.

(** The operations the methods of [FloatCounter] are made of. *)
Inductive event : Type -> Type :=
| Lock : event unit
    (* fc.mu.Lock() *)
| Unlock : event unit
    (* fc.mu.Unlock() *)
| Load_n : event float
    (* fc.n *)
| Store_n (v : float) : event unit
    (* fc.n = v *)
| Store_lastWriteTime (v : Z) : event unit
    (* fc.lastWriteTime = v *)
| LoadInt64_lastWriteTime : event Z
    (* atomic.LoadInt64(&c.lastWriteTime) *)
| TimeNowUnix : event Z
    (* time.Now().Unix() *)
| Write (p : string) : event unit.
    (* w.Write(p) *)

Definition set_fc (s : state) (fc' : FloatCounter) : state :=
  {| fc := fc'; clock_reads := clock_reads s; written := written s |}.

(** A goroutine on its own: [Lock] on a mutex that is held never returns,
    and [Unlock] on a mutex that is not held is a fatal error. *)
Definition handle (clk : Clock) (X : Type) (e : event X) (s : state)
  : option (X * state) :=
  match e in event X return option (X * state) with
  | Lock =>
      if mu (fc s) then None
      else Some (tt, set_fc s {| mu := true; n := n (fc s);
                                 lastWriteTime := lastWriteTime (fc s) |})
  | Unlock =>
      if mu (fc s)
      then Some (tt, set_fc s {| mu := false; n := n (fc s);
                                 lastWriteTime := lastWriteTime (fc s) |})
      else None
  | Load_n => Some (n (fc s), s)
  | Store_n v =>
      Some (tt, set_fc s {| mu := mu (fc s); n := v;
                            lastWriteTime := lastWriteTime (fc s) |})
  | Store_lastWriteTime v =>
      Some (tt, set_fc s {| mu := mu (fc s); n := n (fc s);
                            lastWriteTime := v |})
  | LoadInt64_lastWriteTime => Some (lastWriteTime (fc s), s)
  | TimeNowUnix =>
      Some (clk (clock_reads s),
            {| fc := fc s; clock_reads := S (clock_reads s);
               written := written s |})
  | Write p =>
      Some (tt,
            {| fc := fc s; clock_reads := clock_reads s;
               written := written s ++ [p] |})
  end.

Local Open Scope prog_scope.

(** The state with the value [v], the mutex free, the clock read once more
    and its reading in [lastWriteTime]. *)
Definition stamped (clk : Clock) (s : state) (v : float) : state :=
  {| fc := {| mu := false; n := v; lastWriteTime := clk (clock_reads s) |};
     clock_reads := S (clock_reads s);
     written := written s |}.

(** The same state with the mutex still held. *)
Definition stamped_locked (clk : Clock) (s : state) (v : float) : state :=
  {| fc := {| mu := true; n := v; lastWriteTime := clk (clock_reads s) |};
     clock_reads := S (clock_reads s);
     written := written s |}.

(** [func (fc *FloatCounter) Add(n float64)] *)
Definition Add (x : float) : prog event unit :=
  trigger Lock ;;
  v <- trigger Load_n ;;
  trigger (Store_n (PrimFloat.add v x)) ;;
  t <- trigger TimeNowUnix ;;
  trigger (Store_lastWriteTime t) ;;
  trigger Unlock.

(** [func (fc *FloatCounter) Sub(n float64)] *)
Definition Sub (x : float) : prog event unit :=
  trigger Lock ;;
  v <- trigger Load_n ;;
  trigger (Store_n (PrimFloat.sub v x)) ;;
  t <- trigger TimeNowUnix ;;
  trigger (Store_lastWriteTime t) ;;
  trigger Unlock.

(** The part of [Get] that runs with the mutex held: from after
    [fc.mu.Lock()] to before [fc.mu.Unlock()]. *)
Definition Get_locked : prog event float :=
  v <- trigger Load_n ;;
  t <- trigger TimeNowUnix ;;
  trigger (Store_lastWriteTime t) ;;
  Ret v.

(** [func (fc *FloatCounter) Get() float64] *)
Definition Get : prog event float :=
  trigger Lock ;;
  v <- Get_locked ;;
  trigger Unlock ;;
  Ret v.

(** [func (fc *FloatCounter) Set(n float64)] ([Set] itself is reserved). *)
Definition Set_ (x : float) : prog event unit :=
  trigger Lock ;;
  trigger (Store_n x) ;;
  t <- trigger TimeNowUnix ;;
  trigger (Store_lastWriteTime t) ;;
  trigger Unlock.

(** [func (fc *FloatCounter) marshalTo(prefix string, w io.Writer)] *)
Definition marshalTo (prefix : string) : prog event unit :=
  v <- Get ;;
  trigger (Write (sprintf_s_g prefix v)).

(** [func (c *FloatCounter) getLastWriteTime() int64] *)
Definition getLastWriteTime : prog event Z :=
  trigger LoadInt64_lastWriteTime.

(** [func (fc *FloatCounter) metricType() string] *)
Definition metricType : prog event string :=
  Ret "counter"%string.

(** *** Sequences of calls *)

Inductive call : Type :=
| CallAdd (x : float)
| CallSub (x : float)
| CallGet
| CallSet (x : float)
| CallMarshalTo (prefix : string).

Definition call_prog (k : call) : prog event unit :=
  match k with
  | CallAdd x => Add x
  | CallSub x => Sub x
  | CallGet => Get ;; Ret tt
  | CallSet x => Set_ x
  | CallMarshalTo prefix => marshalTo prefix
  end.

(** A goroutine making the calls [ks] one after the other, reading
    [getLastWriteTime()] after every call and returning what it read,
    oldest first. *)
Fixpoint watch (ks : list call) : prog event (list Z) :=
  match ks with
  | [] => Ret []
  | k :: ks' =>
      call_prog k ;;
      t <- getLastWriteTime ;;
      ts <- watch ks' ;;
      Ret (t :: ts)
  end.

(** *** Goroutines sharing a FloatCounter *)

(** A goroutine making the calls [ks] one after the other. *)
Fixpoint goroutine (ks : list call) : prog event unit :=
  match ks with
  | [] => Ret tt
  | k :: ks' => call_prog k ;; goroutine ks'
  end.

(** How many operations a call is made of. *)
Definition atomic_ops (k : call) : nat :=
  match k with
  | CallAdd _ | CallSub _ | CallMarshalTo _ => 6
  | CallGet | CallSet _ => 5
  end.

Definition total_ops (threads : list (list call)) : nat :=
  sum_list ((fun ks => sum_list (atomic_ops <$> ks)) <$> threads).

(** What a program goes on with once [fc.mu.Lock()] has returned. *)
Definition after_lock (p : prog event unit) : prog event unit :=
  match p with
  | Ret _ => p
  | Vis e k =>
      match e in event X return (X -> prog event unit) -> prog event unit with
      | Lock => fun k' => k' tt
      | _ => fun _ => p
      end k
  end.

(** A goroutine at one of the operations that the methods do between
    [Lock] and [Unlock]: a plain access to [fc.n] or [fc.lastWriteTime],
    the reading of the clock, or [Unlock] itself. *)
Definition inside (p : prog event unit) : Prop :=
  match p with
  | Ret _ => False
  | Vis e _ =>
      match e with
      | Unlock | Load_n | Store_n _ | Store_lastWriteTime _ | TimeNowUnix =>
          True
      | _ => False
      end
  end.

(** What may be left of a call that has released the mutex: calls to the
    writer. *)
Fixpoint trailing (p : prog event unit) : Prop :=
  match p with
  | Ret _ => True
  | Vis e k =>
      match e in event X return (X -> Prop) -> Prop with
      | Write _ => fun K => forall x, K x
      | _ => fun _ => False
      end (fun x => trailing (k x))
  end.

(** What is left of a call that holds the mutex: operations on the fields
    and the clock up to one [Unlock]. *)
Fixpoint holder (p : prog event unit) : Prop :=
  match p with
  | Ret _ => False
  | Vis e k =>
      match e in event X
            return (X -> prog event unit) -> (X -> Prop) -> Prop with
      | Unlock => fun k' _ => forall x, trailing (k' x)
      | Load_n | Store_n _ | Store_lastWriteTime _ | TimeNowUnix =>
          fun _ K => forall x, K x
      | _ => fun _ _ => False
      end k (fun x => holder (k x))
  end.

(** [stamped_by p t]: a timestamp that [p] stores is the time it has read
    last, [t] being the one read so far. *)
Fixpoint stamped_by (p : prog event unit) (t : option Z) : Prop :=
  match p with
  | Ret _ => True
  | Vis e k =>
      match e in event X return (X -> option Z -> Prop) -> Prop with
      | Store_lastWriteTime v => fun K => t = Some v /\ forall x, K x t
      | TimeNowUnix => fun K => forall x, K x (Some x)
      | _ => fun K => forall x, K x t
      end (fun x => stamped_by (k x))
  end.

(** Three goroutines, for examples. *)
Definition example_threads : list (list call) :=
  [[CallAdd 1.5%float; CallGet];
   [CallSub 0.5%float; CallMarshalTo "m"];
   [CallSet 2%float]].

(** [merges threads l rest]: the calls [l] have been taken one at a time,
    each from the front of one of the lists of [threads], and [rest] is
    what is left of the lists. *)
Inductive merges (threads : list (list call))
  : list call -> list (list call) -> Prop :=
| merges_nil : merges threads [] threads
| merges_snoc (l : list call) (rest : list (list call)) (i : nat)
    (k : call) (ks : list call) :
    merges threads l rest ->
    rest !! i = Some (k :: ks) ->
    merges threads (l ++ [k]) (<[i := ks]> rest).

(** [l] is made of all the calls of [threads], those of one goroutine in
    their order. *)
Definition interleaving (threads : list (list call)) (l : list call)
  : Prop :=
  exists rest, merges threads l rest /\ Forall (fun ks => ks = []) rest.

(** The same counter and the same clock; the writer may differ. *)
Definition same_counter (s1 s2 : state) : Prop :=
  fc s1 = fc s2 /\ clock_reads s1 = clock_reads s2.

(** A goroutine in the middle of a call [th.1], with the calls [th.2] still
    to make. *)
Definition thread_of (th : prog event unit * list call) : prog event unit :=
  th.1 ;; goroutine th.2.

(** The clock never goes back and the timestamp that [s0] starts with is
    not ahead of it. *)
Definition clock_ok (clk : Clock) (s0 : state) : Prop :=
  monotone clk /\ lastWriteTime (fc s0) <= clk (clock_reads s0).

(** What holds of the goroutines making the calls [threads], started on
    [s0], however they have taken their turns: some interleaving [order]
    of the calls begun so far, run by one goroutine, leads to the counter
    and the clock of now, or of the moment the call in progress is over;
    no goroutine but the one that holds the mutex is in the middle of a
    call, other than at a call to the writer. *)
Definition serialized (clk : Clock) (s0 : state) (threads : list (list call))
    (cfg : list (prog event unit) * state) : Prop :=
  exists (ths : list (prog event unit * list call)) (order : list call)
         (s_seq : state),
    cfg.1 = thread_of <$> ths /\
    merges threads order (snd <$> ths) /\
    run_opt (handle clk) (goroutine order) s0 = Some (tt, s_seq) /\
    mu (fc s_seq) = false /\
    (clock_ok clk s0 ->
     lastWriteTime (fc cfg.2) <= clk (clock_reads cfg.2)) /\
    ((mu (fc cfg.2) = false /\
      Forall (fun th => trailing th.1) ths /\
      same_counter cfg.2 s_seq)
     \/
     (mu (fc cfg.2) = true /\
      exists (i : nat) (p : prog event unit) (ks : list call)
             (s_end : state),
        ths !! i = Some (p, ks) /\
        holder p /\
        (forall j th, j <> i -> ths !! j = Some th -> trailing th.1) /\
        run_opt (handle clk) p cfg.2 = Some (tt, s_end) /\
        same_counter s_end s_seq /\
        (clock_ok clk s0 ->
         exists t : option Z,
           stamped_by p t /\
           forall v, t = Some v ->
             lastWriteTime (fc cfg.2) <= v <= clk (clock_reads cfg.2)))).

End FloatCounter.

(** * Properties *)

(** ** 64-bit arithmetic *)

Lemma U64_modulus_pos : 0 < U64.modulus.
Proof. reflexivity. Qed.

Lemma U64_wrap_in_range (x : Z) : U64.in_range (U64.wrap x).
Proof. apply Z.mod_pos_bound, U64_modulus_pos. Qed.

Lemma U64_wrap_small (x : Z) : U64.in_range x -> U64.wrap x = x.
Proof. intros H. apply Z.mod_small, H. Qed.

Lemma U64_wrap_add_l (x y : Z) : U64.wrap (U64.wrap x + y) = U64.wrap (x + y).
Proof. apply Zplus_mod_idemp_l. Qed.

Lemma U64_wrap_add_r (x y : Z) : U64.wrap (x + U64.wrap y) = U64.wrap (x + y).
Proof. apply Zplus_mod_idemp_r. Qed.

(** Congruent numbers stay congruent when the same is added to both. *)
Lemma U64_wrap_add_cong (x y z : Z) :
  U64.wrap x = U64.wrap y -> U64.wrap (x + z) = U64.wrap (y + z).
Proof.
  intros H.
  rewrite <- (U64_wrap_add_l x), <- (U64_wrap_add_l y).
  now rewrite H.
Qed.

Lemma U64_wrap_sub_wrap (x : Z) : U64.wrap (x - U64.wrap x) = 0.
Proof.
  unfold U64.wrap.
  rewrite Zminus_mod_idemp_r, Z.sub_diag.
  reflexivity.
Qed.

(** [^uint64(0)] is the largest [uint64], the two's complement of 1. *)
Lemma U64_not_0 : U64.not 0 = U64.max.
Proof. reflexivity. Qed.

Lemma U64_not_0_minus_1 : U64.not 0 = U64.wrap (- 1).
Proof. reflexivity. Qed.

(** Converting to [int64] first does not change the [uint64]. *)
Lemma uint64_of_int64_of_int (x : Z) :
  uint64_of_signed (int64_of_int x) = uint64_of_signed x.
Proof.
  unfold uint64_of_signed, int64_of_int, I64.wrap, U64.wrap, U64.modulus.
  rewrite Zminus_mod_idemp_l.
  f_equal. lia.
Qed.

(** [int64(n)] keeps the value of every [int]. *)
Lemma int64_of_int_id (w : int_size) (x : Z) :
  int_in_range w x -> int64_of_int x = x.
Proof.
  unfold int_in_range, int64_of_int, I64.wrap.
  intros H.
  assert (Hx : - 2 ^ 63 <= x < 2 ^ 63) by (destruct w; simpl in H; lia).
  rewrite Z.mod_small; lia.
Qed.

(** ** The general format on some float64 *)

(** The two numbers the spec gives as examples of the format; [123.456] is
    not a float64, the nearest one is meant. *)
Example fmt_g_123_456 :
  Ftoa.fmt_g 0x1.edd2f1a9fbe77p+6%float = "123.456"%string.
Proof. vm_compute. reflexivity. Qed.

Example fmt_g_1e10 : Ftoa.fmt_g 1e10%float = "1e+10"%string.
Proof. vm_compute. reflexivity. Qed.

(** The exponent form starts at [1e+06] and below [0.0001]. *)
Example fmt_g_thresholds :
  map Ftoa.fmt_g
    [100000; 1000000; 0x1.a36e2eb1c432dp-14; 0x1.4f8b588e368f1p-17]%float
  = ["100000"; "1e+06"; "0.0001"; "1e-05"]%string.
Proof. vm_compute. reflexivity. Qed.

(** Sums that are not the decimal one expects show all their digits. *)
Example fmt_g_sum :
  Ftoa.fmt_g (PrimFloat.add 0x1.999999999999ap-4 0x1.999999999999ap-3)
  = "0.30000000000000004"%string.
Proof. vm_compute. reflexivity. Qed.

Example fmt_g_special :
  map Ftoa.fmt_g
    [PrimFloat.div 1 0; PrimFloat.div (-1) 0; PrimFloat.div 0 0; 0;
     PrimFloat.opp 0]%float
  = ["+Inf"; "-Inf"; "NaN"; "0"; "-0"]%string.
Proof. vm_compute. reflexivity. Qed.

(** ** Running programs *)

Section ProgFacts.

Import Prog.

Context {E : Type -> Type} {S : Type}.

Lemma run_bind (h : forall X : Type, E X -> S -> X * S) {A B : Type}
    (p : prog E A) (f : A -> prog E B) (s : S) :
  run h (bind p f) s = run h (f (run h p s).1) (run h p s).2.
Proof.
  revert s.
  induction p as [a | X e k IH]; intros s; simpl.
  - reflexivity.
  - destruct (h X e s) as [x s']. apply IH.
Qed.

Lemma run_opt_bind (h : forall X : Type, E X -> S -> option (X * S))
    {A B : Type} (p : prog E A) (f : A -> prog E B) (s : S) :
  run_opt h (bind p f) s =
  match run_opt h p s with
  | Some (a, s') => run_opt h (f a) s'
  | None => None
  end.
Proof.
  revert s.
  induction p as [a | X e k IH]; intros s; simpl.
  - reflexivity.
  - destruct (h X e s) as [[x s'] |]; [apply IH | reflexivity].
Qed.

Lemma schedule_rtc (h : forall X : Type, E X -> S -> X * S) {A : Type}
    (turns : list nat) (cfg : list (prog E A) * S) :
  rtc (pool_step h) cfg (schedule h turns cfg).
Proof.
  revert cfg.
  induction turns as [| i turns IH]; intros cfg; simpl.
  - apply rtc_refl.
  - etrans; [| apply IH].
    unfold turn.
    destruct (cfg.1 !! i) as [p |] eqn:Hi; [| apply rtc_refl].
    destruct (step_thread h p cfg.2) as [[p' s'] |] eqn:Hp; [| apply rtc_refl].
    apply rtc_once.
    destruct cfg as [pool s]. simpl in *.
    now apply pool_step_at with (p := p).
Qed.

End ProgFacts.

(** ** Counter, one goroutine *)

Module CounterSpec.

Import Prog Counter.

Local Open Scope prog_scope.

Lemma run_Inc (clk : Clock) (s : state) :
  run (handle clk) Inc s =
  (tt, set_c s {| n := U64.wrap (n (c s) + 1);
                  lastWriteTime := lastWriteTime (c s) |}).
Proof. reflexivity. Qed.

Lemma run_Dec (clk : Clock) (s : state) :
  run (handle clk) Dec s = (tt, stamped clk s (U64.add (n (c s)) (U64.not 0))).
Proof. reflexivity. Qed.

Lemma run_Add (clk : Clock) (x : Z) (s : state) :
  run (handle clk) (Add x) s =
  (tt, stamped clk s (U64.add (n (c s)) (uint64_of_signed x))).
Proof. reflexivity. Qed.

Lemma run_AddInt64 (clk : Clock) (x : Z) (s : state) :
  run (handle clk) (AddInt64 x) s =
  (tt, stamped clk s (U64.add (n (c s)) (uint64_of_signed x))).
Proof. reflexivity. Qed.

Lemma run_Set (clk : Clock) (v : Z) (s : state) :
  run (handle clk) (Set_ v) s = (tt, stamped clk s v).
Proof. reflexivity. Qed.

Lemma run_Get (clk : Clock) (s : state) :
  run (handle clk) Get s = (n (c s), s).
Proof. reflexivity. Qed.

Lemma run_getLastWriteTime (clk : Clock) (s : state) :
  run (handle clk) getLastWriteTime s = (lastWriteTime (c s), s).
Proof. reflexivity. Qed.

(** *** The timestamp never goes back *)

Section Timestamps.

Context (clk : Clock) (Hclk : monotone clk).

Lemma call_not_ahead (k : call) (s : state) :
  not_ahead clk s ->
  lastWriteTime (c s) <= lastWriteTime (c (run (handle clk) (call_prog k) s).2)
  /\ not_ahead clk (run (handle clk) (call_prog k) s).2.
Proof.
  unfold not_ahead. intros H.
  assert (Hs := Hclk (clock_reads s) (S (clock_reads s))
                  (Nat.le_succ_diag_r _)).
  destruct k; simpl; lia.
Qed.

Lemma call_stamps (k : call) (s : state) :
  stamps k -> not_ahead clk (run (handle clk) (call_prog k) s).2.
Proof.
  unfold not_ahead. intros H.
  assert (Hs := Hclk (clock_reads s) (S (clock_reads s))
                  (Nat.le_succ_diag_r _)).
  destruct k; simpl in *; solve [tauto | lia].
Qed.

Lemma run_watch_cons (k : call) (ks : list call) (s : state) :
  (run (handle clk) (watch (k :: ks)) s).1 =
  lastWriteTime (c (run (handle clk) (call_prog k) s).2)
  :: (run (handle clk) (watch ks) (run (handle clk) (call_prog k) s).2).1.
Proof.
  change (watch (k :: ks)) with
    (bind (call_prog k) (fun _ =>
       bind getLastWriteTime (fun t =>
         bind (watch ks) (fun ts => Ret (t :: ts))))).
  now rewrite !run_bind.
Qed.

Lemma sorted_from (a b : Z) (l : list Z) :
  a <= b -> StronglySorted Z.le (b :: l) -> StronglySorted Z.le (a :: b :: l).
Proof.
  intros Hab Hl.
  constructor; [exact Hl |].
  apply StronglySorted_inv in Hl as [_ Hb].
  constructor; [exact Hab |].
  eapply Forall_impl; [exact Hb |].
  intros x Hx. simpl in Hx. lia.
Qed.

Lemma watch_sorted (ks : list call) (s : state) :
  not_ahead clk s ->
  StronglySorted Z.le
    (lastWriteTime (c s) :: (run (handle clk) (watch ks) s).1).
Proof.
  revert s.
  induction ks as [| k ks IH]; intros s Hs.
  - simpl. repeat constructor.
  - rewrite run_watch_cons.
    destruct (call_not_ahead k s Hs) as [Hle Hs1].
    apply sorted_from; [exact Hle | apply IH, Hs1].
Qed.

Lemma watch_length (ks : list call) (s : state) :
  length (run (handle clk) (watch ks) s).1 = length ks.
Proof.
  revert s.
  induction ks as [| k ks IH]; intros s; [reflexivity |].
  rewrite run_watch_cons. simpl. now rewrite IH.
Qed.

Lemma watch_stamps_sorted (ks : list call) (s : state) :
  Forall stamps ks ->
  StronglySorted Z.le (run (handle clk) (watch ks) s).1.
Proof.
  intros Hks.
  destruct Hks as [| k ks Hk Hks].
  - simpl. constructor.
  - rewrite run_watch_cons.
    apply watch_sorted, call_stamps, Hk.
Qed.

End Timestamps.

(** C3: [Dec] adds [^uint64(0)], the two's complement of 1, with wrap-around
    and always returns; on a counter at 0 it leaves 2^64 - 1, the largest
    [uint64]; and it stores the current Unix time in [lastWriteTime]. *)
Theorem Dec_wraps (clk : Clock) (s : state) :
  U64.not 0 = U64.wrap (- 1) /\
  (exists s' : state,
     run (handle clk) Dec s = (tt, s') /\
     n (c s') = U64.wrap (n (c s) + U64.wrap (- 1)) /\
     lastWriteTime (c s') = clk (clock_reads s) /\
     (n (c s) = 0 -> n (c s') = 2 ^ 64 - 1)).
Proof.
  split; [reflexivity |].
  exists (stamped clk s (U64.add (n (c s)) (U64.not 0))).
  split; [apply run_Dec |].
  simpl. repeat split.
  intros ->. reflexivity.
Qed.

Lemma Dec_wraps_witness :
  n (c (init new)) = 0 /\
  n (c (run (handle (fun _ => 1700000000)) Dec (init new)).2) = 2 ^ 64 - 1.
Proof.
  split; [reflexivity |].
  destruct (Dec_wraps (fun _ => 1700000000) (init new))
    as [_ (s' & Hrun & _ & _ & H0)].
  rewrite Hrun. apply H0. reflexivity.
Defined.

(** C4: [Get] returns the value and leaves the whole state as it was,
    [lastWriteTime] included; it does not read the clock either. *)
Theorem Get_pure (clk : Clock) (s : state) :
  run (handle clk) Get s = (n (c s), s).
Proof. apply run_Get. Qed.

(** C5: [Inc] adds 1 to the value modulo 2^64 and leaves [lastWriteTime]
    (and the clock) alone, whereas [Dec], [Add], [AddInt64] and [Set] store
    the current Unix time in it. *)
Theorem Inc_no_timestamp (clk : Clock) (s : state) :
  let after (p : prog event unit) := c (run (handle clk) p s).2 in
  n (after Inc) = (n (c s) + 1) mod 2 ^ 64 /\
  lastWriteTime (after Inc) = lastWriteTime (c s) /\
  clock_reads (run (handle clk) Inc s).2 = clock_reads s /\
  lastWriteTime (after Dec) = clk (clock_reads s) /\
  (forall x : Z, lastWriteTime (after (Add x)) = clk (clock_reads s)) /\
  (forall x : Z, lastWriteTime (after (AddInt64 x)) = clk (clock_reads s)) /\
  (forall v : Z, lastWriteTime (after (Set_ v)) = clk (clock_reads s)).
Proof. repeat split. Qed.

(** C6: [Add(x)] and [AddInt64(x)] leave the old value plus [x] modulo
    2^64, whatever the sign of [x], and store the current Unix time in
    [lastWriteTime]. *)
Theorem Add_wraps (clk : Clock) (s : state) (x : Z) :
  let after (p : prog event unit) := c (run (handle clk) p s).2 in
  n (after (Add x)) = (n (c s) + x) mod 2 ^ 64 /\
  lastWriteTime (after (Add x)) = clk (clock_reads s) /\
  n (after (AddInt64 x)) = (n (c s) + x) mod 2 ^ 64 /\
  lastWriteTime (after (AddInt64 x)) = clk (clock_reads s).
Proof.
  simpl. unfold U64.add, uint64_of_signed.
  rewrite U64_wrap_add_r.
  repeat split.
Qed.

(** C10: for [x] of type [int], of either width, [int64(x)] is the same
    number, and [Add(x)] and [AddInt64(int64(x))] return the same and leave
    the same state: value, timestamp and clock. *)
Theorem Add_AddInt64_same (clk : Clock) (w : int_size) (s : state) (x : Z) :
  int_in_range w x ->
  int64_of_int x = x /\
  run (handle clk) (Add x) s = run (handle clk) (AddInt64 (int64_of_int x)) s.
Proof.
  intros Hx.
  split; [apply (int64_of_int_id w x Hx) |].
  rewrite run_Add, run_AddInt64.
  now rewrite uint64_of_int64_of_int.
Qed.

Lemma Add_AddInt64_same_witness :
  int_in_range Int32 (- 5) /\
  run (handle (fun _ => 1700000000)) (Add (- 5)) (init new) =
  run (handle (fun _ => 1700000000)) (AddInt64 (int64_of_int (- 5))) (init new).
Proof.
  assert (Hx : int_in_range Int32 (- 5)).
  { unfold int_in_range. simpl. lia. }
  split; [exact Hx |].
  exact (proj2 (Add_AddInt64_same (fun _ => 1700000000) Int32 (init new)
                  (- 5) Hx)).
Defined.

End CounterSpec.

(** ** FloatCounter, one goroutine *)

Module FloatCounterSpec.

Import Prog FloatCounter.

Local Open Scope prog_scope.

(** Every method starts with [Lock]: the equations below are for a mutex
    that is free. *)
Ltac run_unlocked H := simpl; rewrite H; reflexivity.

Lemma float_run_Add (clk : Clock) (x : float) (s : state) :
  mu (fc s) = false ->
  run_opt (handle clk) (Add x) s =
  Some (tt, stamped clk s (PrimFloat.add (n (fc s)) x)).
Proof. intros H. run_unlocked H. Qed.

Lemma float_run_Sub (clk : Clock) (x : float) (s : state) :
  mu (fc s) = false ->
  run_opt (handle clk) (Sub x) s =
  Some (tt, stamped clk s (PrimFloat.sub (n (fc s)) x)).
Proof. intros H. run_unlocked H. Qed.

Lemma float_run_Get (clk : Clock) (s : state) :
  mu (fc s) = false ->
  run_opt (handle clk) Get s = Some (n (fc s), stamped clk s (n (fc s))).
Proof. intros H. run_unlocked H. Qed.

Lemma float_run_Set (clk : Clock) (x : float) (s : state) :
  mu (fc s) = false ->
  run_opt (handle clk) (Set_ x) s = Some (tt, stamped clk s x).
Proof. intros H. run_unlocked H. Qed.

Lemma float_run_marshalTo (clk : Clock) (prefix : string) (s : state) :
  mu (fc s) = false ->
  run_opt (handle clk) (marshalTo prefix) s =
  Some (tt,
        {| fc := fc (stamped clk s (n (fc s)));
           clock_reads := S (clock_reads s);
           written := written s ++ [sprintf_s_g prefix (n (fc s))] |}).
Proof. intros H. run_unlocked H. Qed.

Lemma float_run_getLastWriteTime (clk : Clock) (s : state) :
  run_opt (handle clk) getLastWriteTime s = Some (lastWriteTime (fc s), s).
Proof. reflexivity. Qed.

(** A method called with the mutex held by someone else never returns. *)
Lemma float_run_locked (clk : Clock) (k : call) (s : state) :
  mu (fc s) = true -> run_opt (handle clk) (call_prog k) s = None.
Proof. intros H. destruct k; simpl; rewrite H; reflexivity. Qed.

(** *** The timestamp never goes back *)

Section Timestamps.

Context (clk : Clock) (Hclk : monotone clk).

(** After any call the mutex is free again and the timestamp is the time
    the call read. *)
Lemma float_run_call (k : call) (s : state) :
  mu (fc s) = false ->
  exists s' : state,
    run_opt (handle clk) (call_prog k) s = Some (tt, s') /\
    mu (fc s') = false /\
    lastWriteTime (fc s') = clk (clock_reads s) /\
    clock_reads s' = S (clock_reads s).
Proof.
  intros H.
  destruct k; simpl; rewrite H; eexists; (split; [reflexivity |]); auto.
Qed.

Lemma float_run_watch_cons (k : call) (ks : list call) (s s' : state) :
  run_opt (handle clk) (call_prog k) s = Some (tt, s') ->
  run_opt (handle clk) (watch (k :: ks)) s =
  match run_opt (handle clk) (watch ks) s' with
  | Some (ts, s'') => Some (lastWriteTime (fc s') :: ts, s'')
  | None => None
  end.
Proof.
  intros Hk.
  change (watch (k :: ks)) with
    (bind (call_prog k) (fun _ =>
       bind getLastWriteTime (fun t =>
         bind (watch ks) (fun ts => Ret (t :: ts))))).
  rewrite run_opt_bind, Hk, run_opt_bind, float_run_getLastWriteTime.
  rewrite run_opt_bind.
  destruct (run_opt (handle clk) (watch ks) s') as [[ts s''] |]; reflexivity.
Qed.

Lemma float_watch_sorted (ks : list call) (s : state) :
  mu (fc s) = false ->
  lastWriteTime (fc s) <= clk (clock_reads s) ->
  exists (ts : list Z) (s' : state),
    run_opt (handle clk) (watch ks) s = Some (ts, s') /\
    length ts = length ks /\
    StronglySorted Z.le (lastWriteTime (fc s) :: ts).
Proof.
  revert s.
  induction ks as [| k ks IH]; intros s Hmu Hs.
  - exists [], s. repeat constructor.
  - destruct (float_run_call k s Hmu) as (s1 & Hk & Hmu1 & Ht1 & Hr1).
    assert (Hstep := Hclk (clock_reads s) (S (clock_reads s))
                       (Nat.le_succ_diag_r _)).
    destruct (IH s1 Hmu1) as (ts & s2 & Hrun & Hlen & Hsorted).
    { rewrite Ht1, Hr1. exact Hstep. }
    exists (lastWriteTime (fc s1) :: ts), s2.
    rewrite (float_run_watch_cons k ks s s1 Hk), Hrun.
    split; [reflexivity |].
    split; [simpl; now rewrite Hlen |].
    apply CounterSpec.sorted_from; [lia | exact Hsorted].
Qed.

Lemma float_watch_all_sorted (ks : list call) (s : state) :
  mu (fc s) = false ->
  exists (ts : list Z) (s' : state),
    run_opt (handle clk) (watch ks) s = Some (ts, s') /\
    length ts = length ks /\
    StronglySorted Z.le ts.
Proof.
  intros Hmu.
  destruct ks as [| k ks].
  - exists [], s. repeat constructor.
  - destruct (float_run_call k s Hmu) as (s1 & Hk & Hmu1 & Ht1 & Hr1).
    destruct (float_watch_sorted ks s1 Hmu1)
      as (ts & s2 & Hrun & Hlen & Hsorted).
    { rewrite Ht1, Hr1. apply Hclk. lia. }
    exists (lastWriteTime (fc s1) :: ts), s2.
    rewrite (float_run_watch_cons k ks s s1 Hk), Hrun.
    split; [reflexivity |].
    split; [simpl; now rewrite Hlen | exact Hsorted].
Qed.

End Timestamps.

(** C7: with the mutex free, [Get] returns the value and leaves it as it
    was, and stores the current Unix time in [lastWriteTime] while it
    still holds the mutex; [marshalTo], which calls [Get], stores it too.
    [Get] of Counter stores nothing. *)
Theorem Get_timestamps (clk : Clock) (s : state) (prefix : string) :
  mu (fc s) = false ->
  (exists mid : state,
     run_opt (handle clk) (trigger Lock ;; Get_locked) s
       = Some (n (fc s), mid) /\
     mu (fc mid) = true /\
     lastWriteTime (fc mid) = clk (clock_reads s) /\
     run_opt (handle clk) (trigger Unlock) mid
       = Some (tt, stamped clk s (n (fc s)))) /\
  (exists s' : state,
     run_opt (handle clk) Get s = Some (n (fc s), s') /\
     n (fc s') = n (fc s) /\
     mu (fc s') = false /\
     lastWriteTime (fc s') = clk (clock_reads s)) /\
  (exists s' : state,
     run_opt (handle clk) (marshalTo prefix) s = Some (tt, s') /\
     n (fc s') = n (fc s) /\
     lastWriteTime (fc s') = clk (clock_reads s)) /\
  (forall t : Counter.state,
     run (Counter.handle clk) Counter.Get t = (Counter.n (Counter.c t), t)).
Proof.
  intros H. repeat apply conj.
  - exists (stamped_locked clk s (n (fc s))).
    repeat apply conj; try reflexivity.
    simpl. rewrite H. reflexivity.
  - eexists. split; [apply float_run_Get, H |]. repeat split.
  - eexists. split; [apply float_run_marshalTo, H |]. repeat split.
  - intros t. reflexivity.
Qed.

Lemma Get_timestamps_witness :
  exists s' : state,
    run_opt (handle (fun _ => 1700000000)) Get
      (init {| mu := false; n := 3.5%float; lastWriteTime := 7 |})
      = Some (3.5%float, s') /\
    lastWriteTime (fc s') = 1700000000.
Proof.
  destruct (Get_timestamps (fun _ => 1700000000)
              (init {| mu := false; n := 3.5%float; lastWriteTime := 7 |})
              "bar" eq_refl)
    as (_ & (s' & Hrun & _ & _ & Ht) & _).
  exists s'. split; [exact Hrun | exact Ht].
Defined.

End FloatCounterSpec.

(** ** Counter, many goroutines *)

Module CounterConcurrent.

Import Prog Counter.

Local Open Scope prog_scope.

Lemma pending_proper (p : prog event unit) (d d' : Z) :
  U64.wrap d = U64.wrap d' -> pending p d -> pending p d'.
Proof.
  revert d d'.
  induction p as [a | X e k IH]; intros d d' Hd; simpl.
  - congruence.
  - destruct e; simpl; intros Hp; try exact Hp; intros x;
      (eapply IH; [| apply Hp]); try exact Hd.
    rewrite <- !Z.add_opp_r. now apply U64_wrap_add_cong.
Qed.

Lemma pending_bind (p q : prog event unit) (d1 d2 : Z) :
  pending p d1 -> pending q d2 -> pending (p ;; q) (d1 + d2).
Proof.
  revert d1.
  induction p as [a | X e k IH]; intros d1; simpl.
  - intros H1 H2.
    apply (pending_proper q d2); [| exact H2].
    rewrite Z.add_comm, <- U64_wrap_add_r, H1. f_equal. lia.
  - destruct e as [a | | v | v | | | w]; simpl; intros H1 H2;
      try exact H1; intros x; try (apply IH; [apply H1 | exact H2]).
    replace (d1 + d2 - a) with (d1 - a + d2) by lia.
    apply IH; [apply H1 | exact H2].
Qed.

Lemma pending_call (k : call) : adds k -> pending (call_prog k) (delta_of k).
Proof.
  intros [d Hd].
  destruct k; try discriminate Hd; simpl; intros; try reflexivity;
    unfold delta_of; simpl; apply U64_wrap_sub_wrap.
Qed.

Lemma pending_goroutine (ks : list call) :
  Forall adds ks -> pending (goroutine ks) (total_delta ks).
Proof.
  induction 1 as [| k ks Hk _ IH]; [reflexivity |].
  apply (pending_bind (call_prog k) (goroutine ks)).
  - apply pending_call, Hk.
  - exact IH.
Qed.

Lemma pending_finished (p : prog event unit) (d : Z) :
  finished p -> pending p d -> U64.wrap d = 0.
Proof. destruct p; simpl; tauto. Qed.

Lemma sumZ_insert (ds : list Z) (i : nat) (d d' : Z) :
  ds !! i = Some d -> sumZ (<[i := d']> ds) = sumZ ds - d + d'.
Proof.
  revert i.
  induction ds as [| a ds IH]; intros [| i] H; simpl in *; try discriminate.
  - injection H as ->. lia.
  - rewrite (IH i H). lia.
Qed.

Lemma sumZ_finished (pool : list (prog event unit)) (ds : list Z) :
  Forall finished pool -> Forall2 pending pool ds -> U64.wrap (sumZ ds) = 0.
Proof.
  intros Hfin Hpend. revert Hfin.
  induction Hpend as [| p d pool ds Hp _ IH]; intros Hfin; [reflexivity |].
  apply Forall_cons in Hfin as [Hfp Hfin].
  simpl.
  rewrite <- U64_wrap_add_l, (pending_finished p d Hfp Hp).
  apply IH, Hfin.
Qed.

Lemma remaining_bind (p q : prog event unit) (m1 m2 : nat) :
  remaining p m1 -> remaining q m2 -> remaining (p ;; q) (m1 + m2).
Proof.
  revert m1.
  induction p as [a | X e k IH]; intros m1; simpl.
  - intros -> H2. exact H2.
  - destruct m1 as [| m1]; [tauto |].
    intros H1 H2 x. apply IH; [apply H1 | exact H2].
Qed.

Lemma remaining_call (k : call) : remaining (call_prog k) (atomic_ops k).
Proof. destruct k; simpl; intros; reflexivity. Qed.

Lemma remaining_goroutine (ks : list call) :
  remaining (goroutine ks) (sum_list (map atomic_ops ks)).
Proof.
  induction ks as [| k ks IH]; [reflexivity |].
  apply (remaining_bind (call_prog k) (goroutine ks)).
  - apply remaining_call.
  - exact IH.
Qed.

Lemma remaining_finished (p : prog event unit) (m : nat) :
  remaining p m -> finished p <-> m = 0%nat.
Proof.
  destruct p as [a | X e k]; simpl.
  - tauto.
  - destruct m; [tauto | intros _; split; [tauto | discriminate]].
Qed.

Lemma sum_list_insert (ms : list nat) (i m m' : nat) :
  ms !! i = Some m -> (sum_list (<[i := m']> ms) + m = sum_list ms + m')%nat.
Proof.
  revert i.
  induction ms as [| a ms IH]; intros [| i] H; simpl in *; try discriminate.
  - injection H as ->. lia.
  - specialize (IH i H). lia.
Qed.

Lemma left_to_do_finished (m : nat) (cfg : list (prog event unit) * state) :
  left_to_do m cfg -> Forall finished cfg.1 <-> m = 0%nat.
Proof.
  intros (ms & Hrem & <-).
  induction Hrem as [| p k pool ms Hp _ IH]; simpl.
  - split; [reflexivity | constructor].
  - rewrite Forall_cons, IH, (remaining_finished p k Hp). lia.
Qed.

Section Interleaving.

Context (clk : Clock).

(** Every turn is one of the operations left to do. *)
Lemma step_thread_remaining (p p' : prog event unit) (s s' : state)
    (m : nat) :
  step_thread (handle clk) p s = Some (p', s') ->
  remaining p m ->
  exists m' : nat, m = S m' /\ remaining p' m'.
Proof.
  destruct p as [a | X e k]; simpl; [discriminate |].
  destruct (handle clk X e s) as [x s1].
  intros [= <- <-] Hm.
  destruct m as [| m]; [contradiction |].
  exists m. split; [reflexivity | apply Hm].
Qed.

Lemma step_left_to_do (m : nat) (cfg cfg' : list (prog event unit) * state) :
  pool_step (handle clk) cfg cfg' ->
  left_to_do m cfg ->
  exists m' : nat, m = S m' /\ left_to_do m' cfg'.
Proof.
  intros Hstep (ms & Hrem & Hm).
  destruct Hstep as [i pool p p' s s' Hi Hp]. simpl in *.
  destruct (Forall2_lookup_l _ _ _ _ _ Hrem Hi) as (k & Hk & Hpk).
  destruct (step_thread_remaining p p' s s' k Hp Hpk) as (k' & -> & Hpk').
  pose proof (sum_list_insert ms i (S k') k' Hk) as Hsum.
  exists (sum_list (<[i := k']> ms)).
  split; [lia |].
  exists (<[i := k']> ms).
  split; [now apply Forall2_insert | reflexivity].
Qed.

Lemma nsteps_left_to_do (k m : nat)
    (cfg cfg' : list (prog event unit) * state) :
  nsteps (pool_step (handle clk)) k cfg cfg' ->
  left_to_do m cfg ->
  (k <= m)%nat /\ left_to_do (m - k) cfg'.
Proof.
  intros Hrun. revert m.
  induction Hrun as [cfg | k cfg1 cfg2 cfg3 Hstep _ IH]; intros m Hm.
  - rewrite Nat.sub_0_r. split; [lia | exact Hm].
  - destruct (step_left_to_do m cfg1 cfg2 Hstep Hm) as (m' & -> & Hm').
    destruct (IH m' Hm') as [Hle Hleft].
    split; [lia | exact Hleft].
Qed.

(** While operations are left to do, some goroutine can take a turn. *)
Lemma left_to_do_step (m : nat) (cfg : list (prog event unit) * state) :
  left_to_do (S m) cfg -> exists cfg', pool_step (handle clk) cfg cfg'.
Proof.
  destruct cfg as [pool s].
  intros (ms & Hrem & Hm). simpl in *.
  assert (Hex : exists i p, pool !! i = Some p /\ ~ finished p).
  { clear s. revert m Hm.
    induction Hrem as [| p k pool ms Hp _ IH]; intros m Hm; simpl in *.
    - discriminate.
    - destruct k as [| k].
      + destruct (IH m Hm) as (i & q & Hi & Hq).
        exists (S i), q. split; [exact Hi | exact Hq].
      + exists 0%nat, p. split; [reflexivity |].
        rewrite (remaining_finished p (S k) Hp). discriminate. }
  destruct Hex as (i & p & Hi & Hp).
  destruct p as [a | X e k]; [simpl in Hp; tauto |].
  destruct (handle clk X e s) as [x s1] eqn:He.
  exists (<[i := k x]> pool, s1).
  apply pool_step_at with (p := Vis e k); [exact Hi |].
  simpl. now rewrite He.
Qed.

Lemma goroutines_left_to_do (threads : list (list call)) (s : state) :
  left_to_do (total_ops threads) (map goroutine threads, s).
Proof.
  exists (map (fun ks => sum_list (map atomic_ops ks)) threads).
  split; [| reflexivity].
  simpl. induction threads as [| ks threads IH]; simpl; constructor.
  - apply remaining_goroutine.
  - exact IH.
Qed.

(** Whatever the schedule, the goroutines take exactly [total_ops] turns:
    no run is longer, a run of that length is at the end, and a shorter
    one can go on. *)
Lemma goroutines_terminate (threads : list (list call)) (s : state)
    (k : nat) (cfg' : list (prog event unit) * state) :
  nsteps (pool_step (handle clk)) k (map goroutine threads, s) cfg' ->
  (k <= total_ops threads)%nat /\
  (Forall finished cfg'.1 <-> k = total_ops threads) /\
  ((k < total_ops threads)%nat ->
   exists cfg'', pool_step (handle clk) cfg' cfg'').
Proof.
  intros Hrun.
  destruct (nsteps_left_to_do k _ _ _ Hrun (goroutines_left_to_do threads s))
    as [Hle Hleft].
  split; [exact Hle |].
  split.
  - rewrite (left_to_do_finished _ cfg' Hleft). lia.
  - intros Hlt.
    apply (left_to_do_step (total_ops threads - k - 1) cfg').
    replace (S (total_ops threads - k - 1)) with (total_ops threads - k)%nat
      by lia.
    exact Hleft.
Qed.

(** One atomic operation of a goroutine takes from what it still has to
    add exactly what it adds to the value. *)
Lemma step_thread_pending (p p' : prog event unit) (s s' : state) (d : Z) :
  step_thread (handle clk) p s = Some (p', s') ->
  pending p d ->
  U64.in_range (n (c s)) ->
  exists d' : Z,
    pending p' d' /\
    U64.in_range (n (c s')) /\
    U64.wrap (n (c s') + d') = U64.wrap (n (c s) + d).
Proof.
  destruct p as [a | X e k]; simpl; [discriminate |].
  destruct e as [a | | v | v | | | w]; simpl; intros [= <- <-] Hp Hr;
    try contradiction;
    try (exists d; simpl; repeat split; solve [apply Hp | apply Hr]).
  exists (d - a). simpl.
  split; [apply Hp |].
  split; [apply U64_wrap_in_range |].
  unfold U64.add. rewrite U64_wrap_add_l. f_equal. lia.
Qed.

Lemma step_balanced (total : Z) (cfg cfg' : list (prog event unit) * state) :
  pool_step (handle clk) cfg cfg' -> balanced total cfg -> balanced total cfg'.
Proof.
  intros Hstep (ds & Hpend & Hr & Htotal).
  destruct Hstep as [i pool p p' s s' Hi Hp]. simpl in *.
  destruct (Forall2_lookup_l _ _ _ _ _ Hpend Hi) as (d & Hd & Hpd).
  destruct (step_thread_pending p p' s s' d Hp Hpd Hr)
    as (d' & Hpd' & Hr' & Heq).
  exists (<[i := d']> ds). simpl.
  split; [now apply Forall2_insert |].
  split; [exact Hr' |].
  rewrite (sumZ_insert ds i d d' Hd), <- Htotal.
  replace (n (c s') + (sumZ ds - d + d')) with (n (c s') + d' + (sumZ ds - d))
    by lia.
  replace (n (c s) + sumZ ds) with (n (c s) + d + (sumZ ds - d)) by lia.
  now apply U64_wrap_add_cong.
Qed.

Lemma rtc_balanced (total : Z) (cfg cfg' : list (prog event unit) * state) :
  rtc (pool_step (handle clk)) cfg cfg' ->
  balanced total cfg -> balanced total cfg'.
Proof.
  induction 1 as [| cfg1 cfg2 cfg3 Hstep _ IH]; [tauto |].
  intros H. eapply IH, step_balanced; eassumption.
Qed.

Lemma goroutines_balanced (threads : list (list call)) (s : state) :
  Forall (Forall adds) threads ->
  U64.in_range (n (c s)) ->
  balanced (U64.wrap (n (c s) + sumZ (map total_delta threads)))
    (map goroutine threads, s).
Proof.
  intros Hadds Hr.
  exists (map total_delta threads). simpl.
  split; [| split; [exact Hr | reflexivity]].
  induction Hadds as [| ks threads Hks _ IH]; simpl; constructor.
  - apply pending_goroutine, Hks.
  - exact IH.
Qed.

(** A goroutine of the pool can always be run to its end. *)
Lemma thread_runs (p : prog event unit) (l1 l2 : list (prog event unit))
    (s : state) :
  exists (a : unit) (s' : state),
    rtc (pool_step (handle clk)) (l1 ++ p :: l2, s) (l1 ++ Ret a :: l2, s').
Proof.
  revert s.
  induction p as [a | X e k IH]; intros s.
  - exists a, s. apply rtc_refl.
  - destruct (handle clk X e s) as [x s1] eqn:He.
    destruct (IH x s1) as (a & s' & Hrun).
    exists a, s'.
    eapply rtc_l; [| exact Hrun].
    replace (l1 ++ k x :: l2) with (<[length l1 := k x]> (l1 ++ Vis e k :: l2)).
    + apply pool_step_at with (p := Vis e k).
      * now apply list_lookup_middle.
      * simpl. now rewrite He.
    + rewrite <- (Nat.add_0_r (length l1)) at 1.
      now rewrite insert_app_r.
Qed.

Lemma pool_runs (l1 l2 : list (prog event unit)) (s : state) :
  Forall finished l1 ->
  exists (pool' : list (prog event unit)) (s' : state),
    rtc (pool_step (handle clk)) (l1 ++ l2, s) (pool', s') /\
    Forall finished pool'.
Proof.
  revert l1 s.
  induction l2 as [| p l2 IH]; intros l1 s Hl1.
  - exists l1, s. rewrite app_nil_r. split; [apply rtc_refl | exact Hl1].
  - destruct (thread_runs p l1 l2 s) as (a & s1 & Hp).
    destruct (IH (l1 ++ [Ret a]) s1) as (pool' & s' & Hrest & Hfin).
    { apply Forall_app. split; [exact Hl1 | now repeat constructor]. }
    exists pool', s'.
    split; [| exact Hfin].
    etrans; [exact Hp |].
    now rewrite <- app_assoc in Hrest.
Qed.

End Interleaving.

(** C1: goroutines that call [Inc], [Dec], [Add] and [AddInt64] on one
    Counter, their atomic operations interleaved in any order, can always
    all be run to the end; whenever they all are at the end, [Get] returns
    the value the counter had plus the sum of the signed numbers added (1
    for [Inc], -1 for [Dec], the argument for [Add] and [AddInt64]) modulo
    2^64, that sum itself on a counter that was at 0; and every
    interleaving is at the end after the same number of turns, none going
    on for longer. *)
Theorem concurrent_adds (clk : Clock) (threads : list (list call))
    (s : state) :
  Forall (Forall adds) threads ->
  U64.in_range (n (c s)) ->
  (exists (pool' : list (prog event unit)) (s' : state),
     rtc (pool_step (handle clk)) (map goroutine threads, s) (pool', s') /\
     Forall finished pool') /\
  (forall (pool' : list (prog event unit)) (s' : state),
     rtc (pool_step (handle clk)) (map goroutine threads, s) (pool', s') ->
     Forall finished pool' ->
     (run (handle clk) Get s').1 =
       (n (c s) + sumZ (map total_delta threads)) mod 2 ^ 64) /\
  (n (c s) = 0 ->
   forall (pool' : list (prog event unit)) (s' : state),
     rtc (pool_step (handle clk)) (map goroutine threads, s) (pool', s') ->
     Forall finished pool' ->
     (run (handle clk) Get s').1 =
       sumZ (map total_delta threads) mod 2 ^ 64) /\
  (forall (k : nat) (cfg' : list (prog event unit) * state),
     nsteps (pool_step (handle clk)) k (map goroutine threads, s) cfg' ->
     (k <= total_ops threads)%nat /\
     (Forall finished cfg'.1 <-> k = total_ops threads) /\
     ((k < total_ops threads)%nat ->
      exists cfg'', pool_step (handle clk) cfg' cfg'')).
Proof.
  intros Hadds Hr.
  pose proof (goroutines_balanced threads s Hadds Hr) as Hbal.
  assert (Hsum : forall pool' s',
             rtc (pool_step (handle clk)) (map goroutine threads, s)
               (pool', s') ->
             Forall finished pool' ->
             (run (handle clk) Get s').1 =
               U64.wrap (n (c s) + sumZ (map total_delta threads))).
  { intros pool' s' Hrun Hfin.
    destruct (rtc_balanced clk _ _ _ Hrun Hbal)
      as (ds & Hpend & Hr' & Htotal).
    simpl in *.
    rewrite <- Htotal, <- U64_wrap_add_r, (sumZ_finished pool' ds Hfin Hpend).
    rewrite Z.add_0_r. symmetry. now apply U64_wrap_small. }
  split; [apply (pool_runs clk [] (map goroutine threads) s); constructor |].
  split; [exact Hsum |].
  split; [| intros k cfg'; apply goroutines_terminate].
  intros H0 pool' s' Hrun Hfin.
  rewrite (Hsum pool' s' Hrun Hfin), H0. reflexivity.
Qed.

Lemma concurrent_adds_witness :
  Forall (Forall adds) example_threads /\
  U64.in_range (n (c (init new))) /\
  Forall finished
    (schedule (handle (fun _ => 1700000000))
       [1; 0; 2; 1; 0; 1; 2; 1; 0; 2]%nat
       (map goroutine example_threads, init new)).1 /\
  (run (handle (fun _ => 1700000000)) Get
     (schedule (handle (fun _ => 1700000000))
        [1; 0; 2; 1; 0; 1; 2; 1; 0; 2]%nat
        (map goroutine example_threads, init new)).2).1
  = 2 ^ 64 - 3.
Proof.
  pose proof (schedule_rtc (handle (fun _ => 1700000000))
                [1; 0; 2; 1; 0; 1; 2; 1; 0; 2]%nat
                (map goroutine example_threads, init new)) as Hrtc.
  set (cfg' := schedule _ _ _) in *.
  assert (Hadds : Forall (Forall adds) example_threads).
  { repeat constructor; eexists; reflexivity. }
  assert (Hr : U64.in_range (n (c (init new)))).
  { unfold U64.in_range, U64.modulus. simpl. lia. }
  assert (Hfin : Forall finished cfg'.1).
  { vm_compute. repeat constructor. }
  split; [exact Hadds |].
  split; [exact Hr |].
  split; [exact Hfin |].
  destruct (concurrent_adds (fun _ => 1700000000) example_threads (init new)
              Hadds Hr) as (_ & Hsum & _).
  replace cfg' with (cfg'.1, cfg'.2) in Hrtc by now destruct cfg'.
  etrans; [exact (Hsum cfg'.1 cfg'.2 Hrtc Hfin) | reflexivity].
Defined.

End CounterConcurrent.

(** ** Both counters *)

Module MetricsSpec.

Import Prog.

Local Open Scope prog_scope.

(** C2: [Get] right after [Set(v)] returns [v], for Counter and (the mutex
    being free) for FloatCounter. *)
Theorem Set_then_Get (clk : Clock) :
  (forall (s : Counter.state) (v : Z),
     (run (Counter.handle clk) (Counter.Set_ v ;; Counter.Get) s).1 = v) /\
  (forall (s : FloatCounter.state) (x : float),
     FloatCounter.mu (FloatCounter.fc s) = false ->
     exists s' : FloatCounter.state,
       run_opt (FloatCounter.handle clk)
         (FloatCounter.Set_ x ;; FloatCounter.Get) s = Some (x, s')).
Proof.
  split.
  - intros s v. reflexivity.
  - intros s x H.
    rewrite run_opt_bind, (FloatCounterSpec.float_run_Set clk x s H).
    rewrite FloatCounterSpec.float_run_Get by reflexivity.
    eexists. reflexivity.
Qed.

Lemma Set_then_Get_witness :
  exists s' : FloatCounter.state,
    run_opt (FloatCounter.handle (fun _ => 1700000000))
      (FloatCounter.Set_ 3.5%float ;; FloatCounter.Get)
      (FloatCounter.init FloatCounter.new) = Some (3.5%float, s').
Proof.
  apply (proj2 (Set_then_Get (fun _ => 1700000000))
           (FloatCounter.init FloatCounter.new) 3.5%float).
  reflexivity.
Defined.

(** The decimal digits of a [uint64] read back as the same number. *)
Lemma fmt_d_reads_back (v : Z) :
  0 <= v ->
  NilZero.uint_of_string (fmt_d v) = Some (N.to_uint (Z.to_N v)) /\
  Z.of_N (N.of_uint (N.to_uint (Z.to_N v))) = v.
Proof.
  intros Hv. split.
  - apply NilZero.usu.
    destruct (Z.to_N v) as [| p].
    + intros H. discriminate H.
    + apply DecimalPos.Unsigned.to_uint_nonnil.
  - rewrite DecimalN.Unsigned.of_to. apply Z2N.id, Hv.
Qed.

(** C8: [marshalTo] makes one call to the writer, with the line made of the
    prefix, a space, the value and a newline: the value of a Counter in
    decimal digits that read back as the same number (42 under [foo] gives
    [foo 42\n]), the value of a FloatCounter in the general format (3.5
    under [bar] gives [bar 3.5\n]). *)
Theorem marshalTo_line (clk : Clock) (prefix : string) :
  (forall s : Counter.state,
     run (Counter.handle clk) (Counter.marshalTo prefix) s =
     (tt, {| Counter.c := Counter.c s;
             Counter.clock_reads := Counter.clock_reads s;
             Counter.written :=
               Counter.written s ++
               [(prefix ++ " " ++ fmt_d (Counter.n (Counter.c s)) ++ newline)
                  %string] |})) /\
  (forall v : Z,
     0 <= v ->
     NilZero.uint_of_string (fmt_d v) = Some (N.to_uint (Z.to_N v)) /\
     Z.of_N (N.of_uint (N.to_uint (Z.to_N v))) = v) /\
  (forall s : Counter.state,
     Counter.n (Counter.c s) = 42 ->
     Counter.written (run (Counter.handle clk) (Counter.marshalTo "foo") s).2
     = Counter.written s ++ [("foo 42" ++ newline)%string]) /\
  (forall s : FloatCounter.state,
     FloatCounter.mu (FloatCounter.fc s) = false ->
     exists s' : FloatCounter.state,
       run_opt (FloatCounter.handle clk) (FloatCounter.marshalTo prefix) s
         = Some (tt, s') /\
       FloatCounter.written s' =
         FloatCounter.written s ++
         [(prefix ++ " " ++ Ftoa.fmt_g (FloatCounter.n (FloatCounter.fc s))
             ++ newline)%string]) /\
  (forall s : FloatCounter.state,
     FloatCounter.mu (FloatCounter.fc s) = false ->
     FloatCounter.n (FloatCounter.fc s) = 3.5%float ->
     exists s' : FloatCounter.state,
       run_opt (FloatCounter.handle clk) (FloatCounter.marshalTo "bar") s
         = Some (tt, s') /\
       FloatCounter.written s' =
         FloatCounter.written s ++ [("bar 3.5" ++ newline)%string]).
Proof.
  repeat apply conj.
  - intros s. reflexivity.
  - apply fmt_d_reads_back.
  - intros s H. simpl. rewrite H. reflexivity.
  - intros s H.
    rewrite (FloatCounterSpec.float_run_marshalTo clk prefix s H).
    eexists. split; reflexivity.
  - intros s H Hn.
    rewrite (FloatCounterSpec.float_run_marshalTo clk "bar" s H).
    eexists. split; [reflexivity |].
    simpl. rewrite Hn. vm_compute. reflexivity.
Qed.

Lemma marshalTo_line_witness :
  Counter.written
    (run (Counter.handle (fun _ => 1700000000)) (Counter.marshalTo "foo")
       (Counter.init {| Counter.n := 42; Counter.lastWriteTime := 0 |})).2
  = [("foo 42" ++ newline)%string] /\
  exists s' : FloatCounter.state,
    run_opt (FloatCounter.handle (fun _ => 1700000000))
      (FloatCounter.marshalTo "bar")
      (FloatCounter.init
         {| FloatCounter.mu := false; FloatCounter.n := 3.5%float;
            FloatCounter.lastWriteTime := 0 |}) = Some (tt, s') /\
    FloatCounter.written s' = [("bar 3.5" ++ newline)%string].
Proof.
  destruct (marshalTo_line (fun _ => 1700000000) "x")
    as (_ & _ & Hfoo & _ & Hbar).
  split.
  - apply (Hfoo (Counter.init
                   {| Counter.n := 42; Counter.lastWriteTime := 0 |})).
    reflexivity.
  - apply (Hbar (FloatCounter.init
                   {| FloatCounter.mu := false; FloatCounter.n := 3.5%float;
                      FloatCounter.lastWriteTime := 0 |}));
      reflexivity.
Defined.

(** C9: when the clock never goes back, the values that
    [getLastWriteTime()] returns after each call of a sequence made by one
    goroutine never decrease: on a Counter for calls of [Dec], [Add],
    [AddInt64] and [Set]; on a Counter whose timestamp is not ahead of the
    clock, for calls of any method and counting the timestamp it starts
    with; on a FloatCounter (the mutex being free) for calls of [Add],
    [Sub], [Get], [Set] and [marshalTo].  There is one value per call. *)
Theorem getLastWriteTime_monotone (clk : Clock) :
  monotone clk ->
  (forall (ks : list Counter.call) (s : Counter.state),
     Forall Counter.stamps ks ->
     length (run (Counter.handle clk) (Counter.watch ks) s).1 = length ks /\
     StronglySorted Z.le (run (Counter.handle clk) (Counter.watch ks) s).1) /\
  (forall (ks : list Counter.call) (s : Counter.state),
     Counter.not_ahead clk s ->
     StronglySorted Z.le
       (Counter.lastWriteTime (Counter.c s)
          :: (run (Counter.handle clk) (Counter.watch ks) s).1)) /\
  (forall (ks : list FloatCounter.call) (s : FloatCounter.state),
     FloatCounter.mu (FloatCounter.fc s) = false ->
     exists (ts : list Z) (s' : FloatCounter.state),
       run_opt (FloatCounter.handle clk) (FloatCounter.watch ks) s
         = Some (ts, s') /\
       length ts = length ks /\
       StronglySorted Z.le ts).
Proof.
  intros Hclk. repeat apply conj.
  - intros ks s Hks. split.
    + apply CounterSpec.watch_length.
    + now apply CounterSpec.watch_stamps_sorted.
  - intros ks s Hs. now apply CounterSpec.watch_sorted.
  - intros ks s Hmu. now apply FloatCounterSpec.float_watch_all_sorted.
Qed.

Lemma getLastWriteTime_monotone_witness :
  monotone (fun k : nat => 1700000000 + Z.of_nat k) /\
  StronglySorted Z.le
    (run (Counter.handle (fun k : nat => 1700000000 + Z.of_nat k))
       (Counter.watch
          [Counter.CallDec; Counter.CallAdd 5; Counter.CallAddInt64 (- 2);
           Counter.CallSet 9])
       (Counter.init Counter.new)).1 /\
  exists (ts : list Z) (s' : FloatCounter.state),
    run_opt (FloatCounter.handle (fun k : nat => 1700000000 + Z.of_nat k))
      (FloatCounter.watch
         [FloatCounter.CallAdd 1.5%float; FloatCounter.CallGet;
          FloatCounter.CallSub 0.5%float; FloatCounter.CallSet 2%float])
      (FloatCounter.init FloatCounter.new) = Some (ts, s') /\
    length ts = 4%nat /\
    StronglySorted Z.le ts.
Proof.
  assert (Hclk : monotone (fun k : nat => 1700000000 + Z.of_nat k)).
  { intros i j Hij. lia. }
  destruct (getLastWriteTime_monotone _ Hclk) as (Hc & _ & Hf).
  split; [exact Hclk |].
  split.
  - apply Hc. repeat constructor.
  - apply Hf. reflexivity.
Defined.

End MetricsSpec.

(** ** Goroutines whose operations may have to wait *)

Section PoolFacts.

Import Prog.

Context {E : Type -> Type} {S : Type}.
Context (h : forall X : Type, E X -> S -> option (X * S)).

Lemma schedule_opt_rtc {A : Type} (turns : list nat)
    (cfg : list (prog E A) * S) :
  rtc (pool_step_opt h) cfg (schedule_opt h turns cfg).
Proof.
  revert cfg.
  induction turns as [| i turns IH]; intros cfg; simpl.
  - apply rtc_refl.
  - etrans; [| apply IH].
    unfold turn_opt.
    destruct (cfg.1 !! i) as [p |] eqn:Hi; [| apply rtc_refl].
    destruct (step_thread_opt h p cfg.2) as [[p' s'] |] eqn:Hp;
      [| apply rtc_refl].
    apply rtc_once.
    destruct cfg as [pool s]. simpl in *.
    now apply pool_step_opt_at with (p := p).
Qed.

Lemma schedule_opt_nsteps {A : Type} (turns : list nat)
    (cfg : list (prog E A) * S) :
  nsteps (pool_step_opt h) (turns_taken h turns cfg) cfg
    (schedule_opt h turns cfg).
Proof.
  revert cfg.
  induction turns as [| i turns IH]; intros cfg; simpl.
  - apply nsteps_O.
  - specialize (IH (turn_opt h cfg i)). revert IH.
    unfold turn_opt.
    destruct (cfg.1 !! i) as [p |] eqn:Hi; [| exact (fun H => H)].
    destruct (step_thread_opt h p cfg.2) as [[p' s'] |] eqn:Hp;
      [| exact (fun H => H)].
    intros IH. eapply nsteps_l; [| exact IH].
    destruct cfg as [pool s]. simpl in *.
    now apply pool_step_opt_at with (p := p).
Qed.

Lemma ops_left_bind {A B : Type} (p : prog E A) (f : A -> prog E B)
    (m1 m2 : nat) :
  ops_left p m1 -> (forall a, ops_left (f a) m2) ->
  ops_left (bind p f) (m1 + m2).
Proof.
  revert m1.
  induction p as [a | X e k IH]; intros m1; simpl.
  - intros -> H2. apply H2.
  - destruct m1 as [| m1]; [tauto |].
    intros H1 H2 x. apply IH; [apply H1 | exact H2].
Qed.

Lemma ops_left_finished {A : Type} (p : prog E A) (m : nat) :
  ops_left p m -> finished p <-> m = 0%nat.
Proof.
  destruct p as [a | X e k]; simpl.
  - tauto.
  - destruct m; [tauto | intros _; split; [tauto | discriminate]].
Qed.

Lemma step_thread_opt_ops_left {A : Type} (p p' : prog E A) (s s' : S)
    (m : nat) :
  step_thread_opt h p s = Some (p', s') ->
  ops_left p m ->
  exists m' : nat, m = Datatypes.S m' /\ ops_left p' m'.
Proof.
  destruct p as [a | X e k]; simpl; [discriminate |].
  destruct (h X e s) as [[x s1] |]; [| discriminate].
  intros [= <- <-] Hm.
  destruct m as [| m]; [contradiction |].
  exists m. split; [reflexivity | apply Hm].
Qed.

Lemma pool_ops_left_finished {A : Type} (pool : list (prog E A)) (m : nat) :
  pool_ops_left pool m -> Forall finished pool <-> m = 0%nat.
Proof.
  intros (ms & Hrem & <-).
  induction Hrem as [| p k pool ms Hp _ IH]; simpl.
  - split; [reflexivity | constructor].
  - rewrite Forall_cons, IH, (ops_left_finished p k Hp). lia.
Qed.

Lemma pool_step_opt_ops_left {A : Type} (cfg cfg' : list (prog E A) * S)
    (m : nat) :
  pool_step_opt h cfg cfg' ->
  pool_ops_left cfg.1 m ->
  exists m' : nat, m = Datatypes.S m' /\ pool_ops_left cfg'.1 m'.
Proof.
  intros Hstep (ms & Hrem & Hm).
  destruct Hstep as [i pool p p' s s' Hi Hp]. simpl in *.
  destruct (Forall2_lookup_l _ _ _ _ _ Hrem Hi) as (k & Hk & Hpk).
  destruct (step_thread_opt_ops_left p p' s s' k Hp Hpk) as (k' & -> & Hpk').
  pose proof (CounterConcurrent.sum_list_insert ms i (Datatypes.S k') k' Hk)
    as Hsum.
  exists (sum_list (<[i := k']> ms)).
  split; [lia |].
  exists (<[i := k']> ms).
  split; [now apply Forall2_insert | reflexivity].
Qed.

Lemma nsteps_opt_ops_left {A : Type} (k m : nat)
    (cfg cfg' : list (prog E A) * S) :
  nsteps (pool_step_opt h) k cfg cfg' ->
  pool_ops_left cfg.1 m ->
  (k <= m)%nat /\ pool_ops_left cfg'.1 (m - k).
Proof.
  intros Hrun. revert m.
  induction Hrun as [cfg | k cfg1 cfg2 cfg3 Hstep _ IH]; intros m Hm.
  - rewrite Nat.sub_0_r. split; [lia | exact Hm].
  - destruct (pool_step_opt_ops_left cfg1 cfg2 m Hstep Hm) as (m' & -> & Hm').
    destruct (IH m' Hm') as [Hle Hleft].
    split; [lia | exact Hleft].
Qed.

End PoolFacts.

(** ** FloatCounter, many goroutines *)

Module FloatCounterConcurrent.

Import Prog FloatCounter.

Local Open Scope prog_scope.

(** Every call starts with [Lock]. *)
Lemma call_prog_lock (k : call) :
  call_prog k = Vis Lock (fun _ => after_lock (call_prog k)).
Proof. destruct k; reflexivity. Qed.

Lemma holder_after_lock (k : call) : holder (after_lock (call_prog k)).
Proof. destruct k; simpl; intros; exact I. Qed.

Lemma stamped_after_lock (k : call) :
  stamped_by (after_lock (call_prog k)) None.
Proof. destruct k; simpl; intros; repeat split; intros; exact I. Qed.

Lemma run_after_lock (clk : Clock) (k : call) (s : state) :
  mu (fc s) = false ->
  run_opt (handle clk) (call_prog k) s =
  run_opt (handle clk) (after_lock (call_prog k))
    (set_fc s {| mu := true; n := n (fc s);
                 lastWriteTime := lastWriteTime (fc s) |}).
Proof.
  intros Hmu. rewrite (call_prog_lock k) at 1.
  simpl. rewrite Hmu. reflexivity.
Qed.

Lemma same_counter_refl (s : state) : same_counter s s.
Proof. split; reflexivity. Qed.

Lemma same_counter_sym (s1 s2 : state) :
  same_counter s1 s2 -> same_counter s2 s1.
Proof. intros [H1 H2]. split; congruence. Qed.

Lemma same_counter_trans (s1 s2 s3 : state) :
  same_counter s1 s2 -> same_counter s2 s3 -> same_counter s1 s3.
Proof. intros [H1 H2] [H3 H4]. split; congruence. Qed.

(** No operation looks at the writer. *)
Lemma handle_same (clk : Clock) (X : Type) (e : event X) (s1 s2 : state) :
  same_counter s1 s2 ->
  match handle clk X e s1, handle clk X e s2 with
  | Some (x1, s1'), Some (x2, s2') => x1 = x2 /\ same_counter s1' s2'
  | None, None => True
  | _, _ => False
  end.
Proof.
  intros [Hfc Hclock].
  destruct e; simpl; rewrite <- ?Hfc, <- ?Hclock;
    try destruct (mu (fc s1));
    repeat split; simpl; congruence.
Qed.

Lemma run_opt_same (clk : Clock) {A : Type} (p : prog event A)
    (s1 s2 e1 : state) (a : A) :
  same_counter s1 s2 ->
  run_opt (handle clk) p s1 = Some (a, e1) ->
  exists e2 : state,
    run_opt (handle clk) p s2 = Some (a, e2) /\ same_counter e1 e2.
Proof.
  revert s1 s2.
  induction p as [b | X e k IH]; intros s1 s2 Hsame; simpl.
  - intros [= <- <-]. exists s2. split; [reflexivity | exact Hsame].
  - pose proof (handle_same clk X e s1 s2 Hsame) as He.
    destruct (handle clk X e s1) as [[x1 s1'] |]; [| discriminate].
    destruct (handle clk X e s2) as [[x2 s2'] |]; [| contradiction].
    destruct He as [<- Hsame']. now apply IH.
Qed.

Lemma run_goroutine_app (clk : Clock) (l1 l2 : list call) (s : state) :
  run_opt (handle clk) (goroutine (l1 ++ l2)) s =
  match run_opt (handle clk) (goroutine l1) s with
  | Some (_, s') => run_opt (handle clk) (goroutine l2) s'
  | None => None
  end.
Proof.
  revert s.
  induction l1 as [| k l1 IH]; intros s; [reflexivity |].
  change (goroutine ((k :: l1) ++ l2))
    with (bind (call_prog k) (fun _ => goroutine (l1 ++ l2))).
  change (goroutine (k :: l1))
    with (bind (call_prog k) (fun _ => goroutine l1)).
  rewrite !run_opt_bind.
  destruct (run_opt (handle clk) (call_prog k) s) as [[[] s1] |];
    [apply IH | reflexivity].
Qed.

Lemma ops_left_call (k : call) : ops_left (call_prog k) (atomic_ops k).
Proof. destruct k; simpl; intros; reflexivity. Qed.

Lemma ops_left_goroutine (ks : list call) :
  ops_left (goroutine ks) (sum_list (atomic_ops <$> ks)).
Proof.
  induction ks as [| k ks IH]; [reflexivity |].
  apply (ops_left_bind (call_prog k) (fun _ => goroutine ks)).
  - apply ops_left_call.
  - intros _. exact IH.
Qed.

Lemma goroutines_ops_left (threads : list (list call)) :
  pool_ops_left (goroutine <$> threads) (total_ops threads).
Proof.
  exists ((fun ks => sum_list (atomic_ops <$> ks)) <$> threads).
  split; [| reflexivity].
  induction threads as [| ks threads IH]; simpl; constructor.
  - apply ops_left_goroutine.
  - exact IH.
Qed.

(** *** Interleavings *)

Lemma concat_insert_perm (rest : list (list call)) (i : nat) (k : call)
    (ks : list call) :
  rest !! i = Some (k :: ks) ->
  concat rest ≡ₚ k :: concat (<[i := ks]> rest).
Proof.
  revert i.
  induction rest as [| a rest IH]; intros [| i] H; simpl in *;
    try discriminate.
  - injection H as ->. reflexivity.
  - rewrite (IH i H). now rewrite Permutation_middle.
Qed.

(** The calls taken and the calls left are the calls there were. *)
Lemma merges_perm (threads rest : list (list call)) (l : list call) :
  merges threads l rest -> l ++ concat rest ≡ₚ concat threads.
Proof.
  induction 1 as [| l rest i k ks _ IH Hi]; [reflexivity |].
  rewrite <- IH, (concat_insert_perm rest i k ks Hi).
  rewrite <- app_assoc. reflexivity.
Qed.

Lemma interleaving_perm (threads : list (list call)) (l : list call) :
  interleaving threads l -> l ≡ₚ concat threads.
Proof.
  intros (rest & Hm & Hnil).
  rewrite <- (merges_perm threads rest l Hm).
  assert (Hc : concat rest = []).
  { clear Hm. induction Hnil as [| ks rest -> _ IH]; [reflexivity | exact IH]. }
  now rewrite Hc, app_nil_r.
Qed.

(** One goroutine alone makes its calls in their order. *)
Lemma merges_single (ks : list call) (rest : list (list call))
    (l : list call) :
  merges [ks] l rest -> exists ks', rest = [ks'] /\ ks = l ++ ks'.
Proof.
  induction 1 as [| l rest i k ks1 _ IH Hi].
  - exists ks. split; reflexivity.
  - destruct IH as (ks' & -> & ->).
    destruct i as [| i]; simpl in Hi; [| discriminate].
    injection Hi as ->.
    exists ks1. split; [reflexivity |].
    now rewrite <- app_assoc.
Qed.


(** *** What every interleaving keeps *)

Lemma thread_of_insert (ths : list (prog event unit * list call)) (j : nat)
    (th : prog event unit * list call) :
  <[j := thread_of th]> (thread_of <$> ths) = thread_of <$> <[j := th]> ths.
Proof. now rewrite list_fmap_insert. Qed.

Lemma snd_insert_same (ths : list (prog event unit * list call)) (j : nat)
    (tl tl' : prog event unit) (ks : list call) :
  ths !! j = Some (tl, ks) -> snd <$> <[j := (tl', ks)]> ths = snd <$> ths.
Proof.
  intros Hj. rewrite list_fmap_insert. apply list_insert_id.
  now rewrite list_lookup_fmap, Hj.
Qed.

Lemma trailing_insert (ths : list (prog event unit * list call)) (i j : nat)
    (th : prog event unit * list call) :
  trailing th.1 ->
  (forall j' th', j' <> i -> ths !! j' = Some th' -> trailing th'.1) ->
  forall j' th', j' <> i -> <[j := th]> ths !! j' = Some th' -> trailing th'.1.
Proof.
  intros Hth Hall j' th' Hne Hj'.
  destruct (decide (j = j')) as [-> | Hjj].
  - apply list_lookup_insert_Some in Hj' as [(_ & <- & _) | [Hc _]];
      [exact Hth | contradiction].
  - rewrite list_lookup_insert_ne in Hj' by exact Hjj. eauto.
Qed.

Section Interleaving.

Context (clk : Clock).

Lemma serialized_init (threads : list (list call)) (s0 : state) :
  mu (fc s0) = false ->
  serialized clk s0 threads (goroutine <$> threads, s0).
Proof.
  intros Hmu.
  exists ((fun ks => (Ret tt, ks)) <$> threads), [], s0. simpl.
  split; [now rewrite <- list_fmap_compose |].
  split.
  { rewrite <- list_fmap_compose.
    replace (snd ∘ (fun ks : list call => (Ret (E := event) tt, ks))
               <$> threads)
      with threads by (symmetry; apply list_fmap_id).
    constructor. }
  split; [reflexivity |].
  split; [exact Hmu |].
  split; [intros [_ H]; exact H |].
  left. split; [exact Hmu |].
  split; [| apply same_counter_refl].
  apply Forall_fmap, Forall_true. intros ks. exact I.
Qed.


(** A call to the writer changes neither the counter nor the clock. *)
Lemma trailing_step (X : Type) (e : event X) (k : X -> prog event unit)
    (s s1 : state) (x : X) :
  trailing (Vis e k) ->
  handle clk X e s = Some (x, s1) ->
  trailing (k x) /\ fc s1 = fc s /\ clock_reads s1 = clock_reads s.
Proof.
  destruct e; simpl; try contradiction.
  intros Hk [= <- <-]. simpl. auto.
Qed.

Lemma trailing_run (p : prog event unit) (s s' : state) (a : unit) :
  trailing p -> run_opt (handle clk) p s = Some (a, s') -> same_counter s s'.
Proof.
  revert s.
  induction p as [b | X e k IH]; intros s Htr; simpl.
  - intros [= _ <-]. apply same_counter_refl.
  - destruct (handle clk X e s) as [[x s1] |] eqn:He; [| discriminate].
    destruct (trailing_step X e k s s1 x Htr He) as (Hk & Hfc & Hcl).
    intros Hrun.
    apply (same_counter_trans s s1 s'); [split; congruence |].
    now apply (IH x).
Qed.

(** The goroutine that holds the mutex keeps it up to [Unlock], and
    after [Unlock] only calls the writer. *)
Lemma holder_step (X : Type) (e : event X) (k : X -> prog event unit)
    (s s1 : state) (x : X) :
  holder (Vis e k) ->
  mu (fc s) = true ->
  handle clk X e s = Some (x, s1) ->
  (mu (fc s1) = true /\ holder (k x)) \/
  (mu (fc s1) = false /\ trailing (k x)).
Proof.
  destruct e; simpl; try contradiction; intros Hk Hmu;
    rewrite ?Hmu; intros [= <- <-]; simpl; auto.
Qed.

(** It can always take its turn. *)
Lemma holder_can_step (p : prog event unit) (ks : list call) (s : state) :
  holder p -> mu (fc s) = true ->
  exists x, step_thread_opt (handle clk) (thread_of (p, ks)) s = Some x.
Proof.
  destruct p as [a | X e k]; unfold thread_of; simpl; [contradiction |].
  destruct e; simpl; try contradiction; intros _ Hmu;
    rewrite ?Hmu; eexists; reflexivity.
Qed.

(** With a clock that never goes back, its operations never take the
    timestamp back. *)
Lemma holder_stamp_step (X : Type) (e : event X) (k : X -> prog event unit)
    (s s1 : state) (x : X) (t : option Z) :
  monotone clk ->
  holder (Vis e k) ->
  mu (fc s) = true ->
  handle clk X e s = Some (x, s1) ->
  stamped_by (Vis e k) t ->
  (forall v, t = Some v ->
     lastWriteTime (fc s) <= v <= clk (clock_reads s)) ->
  lastWriteTime (fc s) <= clk (clock_reads s) ->
  lastWriteTime (fc s) <= lastWriteTime (fc s1) /\
  lastWriteTime (fc s1) <= clk (clock_reads s1) /\
  exists t' : option Z,
    stamped_by (k x) t' /\
    forall v, t' = Some v ->
      lastWriteTime (fc s1) <= v <= clk (clock_reads s1).
Proof.
  intros Hclk.
  assert (Hs := Hclk (clock_reads s) (Datatypes.S (clock_reads s))
                  (Nat.le_succ_diag_r _)).
  destruct e; simpl; try contradiction; intros Hk Hmu;
    rewrite ?Hmu; intros [= <- <-] Hst Ht Hna; simpl.
  - (* Unlock *)
    split; [lia |]. split; [exact Hna |].
    exists t. split; [apply Hst | exact Ht].
  - (* Load_n *)
    split; [lia |]. split; [exact Hna |].
    exists t. split; [apply Hst | exact Ht].
  - (* Store_n *)
    split; [lia |]. split; [exact Hna |].
    exists t. split; [apply Hst | exact Ht].
  - (* Store_lastWriteTime *)
    destruct Hst as [-> Hst].
    specialize (Ht v eq_refl).
    split; [lia |]. split; [lia |].
    exists (Some v). split; [apply Hst |].
    intros v' [= <-]. lia.
  - (* TimeNowUnix *)
    split; [lia |]. split; [lia |].
    exists (Some (clk (clock_reads s))). split; [apply Hst |].
    intros v' [= <-]. lia.
Qed.

Lemma step_serialized (threads : list (list call)) (s0 : state)
    (cfg cfg' : list (prog event unit) * state) :
  pool_step_opt (handle clk) cfg cfg' ->
  serialized clk s0 threads cfg ->
  serialized clk s0 threads cfg' /\
  (clock_ok clk s0 ->
   lastWriteTime (fc cfg.2) <= lastWriteTime (fc cfg'.2)).
Proof.
  intros Hstep
    (ths & order & s_seq & Hpool & Hmerge & Hseq & Hmuseq & Hna & Hphase).
  destruct Hstep as [j pool q q' s s' Hj Hq]. simpl in *. subst pool.
  rewrite list_lookup_fmap in Hj.
  destruct (ths !! j) as [[tl ks] |] eqn:Hth; [| discriminate].
  injection Hj as <-. unfold thread_of in Hq. simpl in Hq.
  assert (Hlt : (j < length ths)%nat) by (eapply lookup_lt_Some; eauto).
  destruct tl as [a | X e k].
  - (* between two calls: the next operation is the [Lock] of a call *)
    simpl in Hq. destruct ks as [| c ks]; [discriminate |].
    simpl in Hq. rewrite (call_prog_lock c) in Hq. simpl in Hq.
    destruct Hphase as [(Hmu & Htrail & Hsame) | (Hmu & _)];
      [| rewrite Hmu in Hq; discriminate].
    rewrite Hmu in Hq. injection Hq as <- <-.
    destruct (FloatCounterSpec.float_run_call clk c s_seq Hmuseq)
      as (s_seq' & Hc & Hmu' & _).
    destruct (run_opt_same clk (call_prog c) s_seq s s_seq' tt
                (same_counter_sym _ _ Hsame) Hc) as (s_end & Hrun & Hsame').
    rewrite (run_after_lock clk c s Hmu) in Hrun.
    split; [| intros _; simpl; lia].
    exists (<[j := (after_lock (call_prog c), ks)]> ths), (order ++ [c]),
      s_seq'.
    simpl.
    split; [now rewrite <- thread_of_insert |].
    split.
    { rewrite list_fmap_insert. simpl.
      apply merges_snoc with (k := c); [exact Hmerge |].
      now rewrite list_lookup_fmap, Hth. }
    split.
    { rewrite run_goroutine_app, Hseq.
      change (goroutine [c]) with (bind (call_prog c) (fun _ => Ret tt)).
      now rewrite run_opt_bind, Hc. }
    split; [exact Hmu' |].
    split; [exact Hna |].
    right. split; [reflexivity |].
    exists j, (after_lock (call_prog c)), ks, s_end.
    split; [now apply list_lookup_insert_eq |].
    split; [apply holder_after_lock |].
    split.
    { intros j' th' Hne Hj'.
      rewrite list_lookup_insert_ne in Hj' by congruence.
      apply (Forall_lookup_1 _ _ _ _ Htrail Hj'). }
    split; [exact Hrun |].
    split; [now apply same_counter_sym |].
    intros _. exists None.
    split; [apply stamped_after_lock | intros v Hv; discriminate Hv].
  - (* in the middle of a call *)
    simpl in Hq.
    destruct (handle clk X e s) as [[x s1] |] eqn:He; [| discriminate].
    injection Hq as <- <-.
    change (bind (k x) (fun _ => goroutine ks)) with (thread_of (k x, ks)).
    rewrite thread_of_insert.
    assert (Hsnd := snd_insert_same ths j (Vis e k) (k x) ks Hth).
    destruct Hphase as [(Hmu & Htrail & Hsame) |
      (Hmu & i & p & ks0 & s_end & Hi & Hhold & Hothers & Hrun & Hsame
       & Hstamp)].
    + (* the mutex is free: a call to the writer *)
      pose proof (Forall_lookup_1 _ _ _ _ Htrail Hth) as Htl. simpl in Htl.
      destruct (trailing_step X e k s s1 x Htl He) as (Hk & Hfc & Hcl).
      split; [| intros _; rewrite Hfc; lia].
      exists (<[j := (k x, ks)]> ths), order, s_seq. simpl.
      split; [reflexivity |].
      split; [now rewrite Hsnd |].
      split; [exact Hseq |].
      split; [exact Hmuseq |].
      split; [rewrite Hfc, Hcl; exact Hna |].
      left. split; [now rewrite Hfc |].
      split; [apply Forall_insert; [exact Htrail | exact Hk] |].
      destruct Hsame as [H1 H2]. split; congruence.
    + destruct (decide (j = i)) as [-> | Hne].
      * (* the goroutine that holds the mutex *)
        rewrite Hth in Hi. injection Hi as <- <-.
        simpl in Hrun. rewrite He in Hrun.
        split.
        -- exists (<[i := (k x, ks)]> ths), order, s_seq. simpl.
           split; [reflexivity |].
           split; [now rewrite Hsnd |].
           split; [exact Hseq |].
           split; [exact Hmuseq |].
           split.
           { intros Hok. destruct (Hstamp Hok) as (t & Hst & Ht).
             apply (holder_stamp_step X e k s s1 x t (proj1 Hok) Hhold Hmu He
                      Hst Ht (Hna Hok)). }
           destruct (holder_step X e k s s1 x Hhold Hmu He)
             as [[Hmu1 Hk] | [Hmu1 Hk]].
           ++ right. split; [exact Hmu1 |].
              exists i, (k x), ks, s_end.
              split; [now apply list_lookup_insert_eq |].
              split; [exact Hk |].
              split.
              { intros j' th' Hne Hj'.
                rewrite list_lookup_insert_ne in Hj' by congruence.
                eauto. }
              split; [exact Hrun |].
              split; [exact Hsame |].
              intros Hok. destruct (Hstamp Hok) as (t & Hst & Ht).
              apply (holder_stamp_step X e k s s1 x t (proj1 Hok) Hhold Hmu He
                       Hst Ht (Hna Hok)).
           ++ left. split; [exact Hmu1 |].
              split.
              { apply Forall_lookup_2. intros j' th' Hj'.
                destruct (decide (j' = i)) as [-> | Hne].
                - rewrite list_lookup_insert_eq in Hj' by exact Hlt.
                  injection Hj' as <-. exact Hk.
                - rewrite list_lookup_insert_ne in Hj' by congruence.
                  eauto. }
              apply (same_counter_trans s1 s_end s_seq); [| exact Hsame].
              apply (trailing_run (k x) s1 s_end tt Hk Hrun).
        -- intros Hok. destruct (Hstamp Hok) as (t & Hst & Ht).
           apply (holder_stamp_step X e k s s1 x t (proj1 Hok) Hhold Hmu He
                    Hst Ht (Hna Hok)).
      * (* another goroutine: a call to the writer *)
        pose proof (Hothers j _ Hne Hth) as Htl. simpl in Htl.
        destruct (trailing_step X e k s s1 x Htl He) as (Hk & Hfc & Hcl).
        destruct (run_opt_same clk p s s1 s_end tt)
          as (s_end' & Hrun' & Hsame');
          [split; congruence | exact Hrun |].
        split; [| intros _; rewrite Hfc; lia].
        exists (<[j := (k x, ks)]> ths), order, s_seq. simpl.
        split; [reflexivity |].
        split; [now rewrite Hsnd |].
        split; [exact Hseq |].
        split; [exact Hmuseq |].
        split; [rewrite Hfc, Hcl; exact Hna |].
        right. split; [now rewrite Hfc |].
        exists i, p, ks0, s_end'.
        split; [now rewrite list_lookup_insert_ne |].
        split; [exact Hhold |].
        split; [apply trailing_insert; [exact Hk | exact Hothers] |].
        split; [exact Hrun' |].
        split.
        { apply (same_counter_trans s_end' s_end s_seq); [| exact Hsame].
          now apply same_counter_sym. }
        rewrite Hfc, Hcl. exact Hstamp.
Qed.


Lemma rtc_serialized (threads : list (list call)) (s0 : state)
    (cfg cfg' : list (prog event unit) * state) :
  rtc (pool_step_opt (handle clk)) cfg cfg' ->
  serialized clk s0 threads cfg ->
  serialized clk s0 threads cfg' /\
  (clock_ok clk s0 ->
   lastWriteTime (fc cfg.2) <= lastWriteTime (fc cfg'.2)).
Proof.
  induction 1 as [cfg | cfg1 cfg2 cfg3 Hstep _ IH]; intros Hinv.
  - split; [exact Hinv | intros _; lia].
  - destruct (step_serialized threads s0 cfg1 cfg2 Hstep Hinv) as [Hinv2 Hle].
    destruct (IH Hinv2) as [Hinv3 Hle'].
    split; [exact Hinv3 |].
    intros Hok. specialize (Hle Hok). specialize (Hle' Hok). lia.
Qed.

Lemma reachable_serialized (threads : list (list call)) (s0 : state)
    (cfg : list (prog event unit) * state) :
  mu (fc s0) = false ->
  rtc (pool_step_opt (handle clk)) (goroutine <$> threads, s0) cfg ->
  serialized clk s0 threads cfg.
Proof.
  intros Hmu Hrun.
  apply (rtc_serialized threads s0 _ cfg Hrun), serialized_init, Hmu.
Qed.

End Interleaving.

(** *** Where a goroutine is *)

Lemma thread_of_finished (th : prog event unit * list call) :
  finished (thread_of th) -> finished th.1 /\ th.2 = [].
Proof.
  destruct th as [[a | X e k] [| c ks]]; unfold thread_of; simpl; try tauto.
  rewrite (call_prog_lock c). simpl. tauto.
Qed.

Lemma holder_not_finished (p : prog event unit) (ks : list call) :
  holder p -> ~ finished (thread_of (p, ks)).
Proof. destruct p; unfold thread_of; simpl; tauto. Qed.

Lemma holder_inside (p : prog event unit) (ks : list call) :
  holder p -> inside (thread_of (p, ks)).
Proof.
  destruct p as [a | X e k]; unfold thread_of; simpl; [tauto |].
  destruct e; simpl; tauto.
Qed.

Lemma trailing_not_inside (tl : prog event unit) (ks : list call) :
  trailing tl -> ~ inside (thread_of (tl, ks)).
Proof.
  destruct tl as [a | X e k]; unfold thread_of; simpl.
  - intros _. destruct ks as [| c ks]; simpl; [tauto |].
    rewrite (call_prog_lock c). simpl. tauto.
  - destruct e; simpl; tauto.
Qed.

(** Between two calls, or at a call to the writer, a goroutine can take
    its turn when the mutex is free, unless it has no call left. *)
Lemma trailing_can_step (clk : Clock) (tl : prog event unit)
    (ks : list call) (s : state) :
  trailing tl ->
  mu (fc s) = false ->
  ~ finished (thread_of (tl, ks)) ->
  exists x, step_thread_opt (handle clk) (thread_of (tl, ks)) s = Some x.
Proof.
  destruct tl as [a | X e k]; unfold thread_of; simpl.
  - intros _ Hmu. destruct ks as [| c ks]; simpl; [tauto |].
    rewrite (call_prog_lock c). simpl. rewrite Hmu. eauto.
  - destruct e; simpl; try tauto. eauto.
Qed.


Lemma pool_unfinished (pool : list (prog event unit)) (m : nat) :
  pool_ops_left pool (S m) ->
  exists j q, pool !! j = Some q /\ ~ finished q.
Proof.
  intros (ms & Hrem & Hm).
  revert m Hm.
  induction Hrem as [| p k pool ms Hp _ IH]; intros m Hm; simpl in *.
  - discriminate.
  - destruct k as [| k].
    + destruct (IH m Hm) as (j & q & Hj & Hq).
      exists (S j), q. split; [exact Hj | exact Hq].
    + exists 0%nat, p. split; [reflexivity |].
      rewrite (ops_left_finished p (S k) Hp). discriminate.
Qed.

(** While a goroutine has not returned, one of them can take a turn. *)
Lemma serialized_progress (clk : Clock) (threads : list (list call))
    (s0 : state) (cfg : list (prog event unit) * state) (m : nat) :
  serialized clk s0 threads cfg ->
  pool_ops_left cfg.1 (S m) ->
  exists cfg', pool_step_opt (handle clk) cfg cfg'.
Proof.
  destruct cfg as [pool s].
  intros (ths & order & s_seq & Hpool & _ & _ & _ & _ & Hphase) Hleft.
  simpl in *. subst pool.
  destruct Hphase as [(Hmu & Htrail & _) |
    (Hmu & i & p & ks & s_end & Hi & Hhold & _)].
  - destruct (pool_unfinished _ m Hleft) as (j & q & Hj & Hq).
    rewrite list_lookup_fmap in Hj.
    destruct (ths !! j) as [[tl ks] |] eqn:Hth; [| discriminate].
    injection Hj as <-.
    pose proof (Forall_lookup_1 _ _ _ _ Htrail Hth) as Htl.
    destruct (trailing_can_step clk tl ks s Htl Hmu Hq) as ([q' s'] & Hstep).
    eexists. eapply pool_step_opt_at; [| exact Hstep].
    now rewrite list_lookup_fmap, Hth.
  - destruct (holder_can_step clk p ks s Hhold Hmu) as ([q' s'] & Hstep).
    eexists. eapply pool_step_opt_at; [| exact Hstep].
    now rewrite list_lookup_fmap, Hi.
Qed.

(** One goroutine making calls leaves the time of the last one. *)
Lemma run_goroutine_latest (clk : Clock) (l : list call) (k : call)
    (s0 s : state) :
  mu (fc s0) = false ->
  run_opt (handle clk) (goroutine (l ++ [k])) s0 = Some (tt, s) ->
  exists r : nat,
    clock_reads s = S r /\ lastWriteTime (fc s) = clk r.
Proof.
  intros Hmu. rewrite run_goroutine_app.
  destruct (run_opt (handle clk) (goroutine l) s0) as [[[] s1] |] eqn:Hl;
    [| discriminate].
  assert (Hmu1 : mu (fc s1) = false).
  { clear k. revert s0 Hmu Hl.
    induction l as [| c l IH]; intros s0 Hmu; simpl.
    - intros [= <-]. exact Hmu.
    - change (bind (call_prog c) (fun _ => goroutine l))
        with (goroutine (c :: l)).
      change (goroutine (c :: l))
        with (bind (call_prog c) (fun _ => goroutine l)).
      rewrite run_opt_bind.
      destruct (FloatCounterSpec.float_run_call clk c s0 Hmu)
        as (s' & -> & Hmu' & _).
      apply IH, Hmu'. }
  destruct (FloatCounterSpec.float_run_call clk k s1 Hmu1)
    as (s' & Hk & _ & Ht & Hr).
  change (goroutine [k]) with (bind (call_prog k) (fun _ => Ret tt)).
  rewrite run_opt_bind, Hk. intros [= <-].
  exists (clock_reads s1). split; [exact Hr | exact Ht].
Qed.

(** When every goroutine has returned, the calls have all been taken and
    one goroutine making them in the order they were taken leaves the same
    counter and clock. *)
Lemma finished_serialized (clk : Clock) (threads : list (list call))
    (s0 s' : state) (pool' : list (prog event unit)) :
  mu (fc s0) = false ->
  rtc (pool_step_opt (handle clk)) (goroutine <$> threads, s0) (pool', s') ->
  Forall finished pool' ->
  exists (order : list call) (rest : list (list call)) (s_seq : state),
    merges threads order rest /\
    Forall (fun ks => ks = []) rest /\
    run_opt (handle clk) (goroutine order) s0 = Some (tt, s_seq) /\
    same_counter s' s_seq.
Proof.
  intros Hmu Hrun Hfin.
  destruct (reachable_serialized clk threads s0 _ Hmu Hrun)
    as (ths & order & s_seq & Hpool & Hmerge & Hseq & _ & _ & Hphase).
  simpl in *. subst pool'.
  rewrite Forall_fmap in Hfin.
  exists order, (snd <$> ths), s_seq.
  split; [exact Hmerge |].
  split.
  { rewrite Forall_fmap.
    eapply Forall_impl; [exact Hfin |].
    intros th Hth. simpl in *. now apply thread_of_finished. }
  split; [exact Hseq |].
  destruct Hphase as [(_ & _ & Hsame) |
    (_ & i & p & ks & s_end & Hi & Hhold & _)]; [exact Hsame |].
  exfalso. apply (holder_not_finished p ks Hhold).
  apply (Forall_lookup_1 _ _ _ _ Hfin Hi).
Qed.

(** X1: goroutines that call [Add], [Sub], [Get], [Set] and [marshalTo] on
    one FloatCounter, whatever the order of their turns, leave the counter
    (value, timestamp, mutex) and the clock that one goroutine leaves
    which makes the same calls one after the other, in some order that
    keeps the calls of each goroutine in their order. *)
Theorem FloatCounter_serializable (clk : Clock) (threads : list (list call))
    (s0 s' : state) (pool' : list (prog event unit)) :
  mu (fc s0) = false ->
  rtc (pool_step_opt (handle clk)) (goroutine <$> threads, s0) (pool', s') ->
  Forall finished pool' ->
  exists (order : list call) (s_seq : state),
    interleaving threads order /\
    order ≡ₚ concat threads /\
    run_opt (handle clk) (goroutine order) s0 = Some (tt, s_seq) /\
    fc s' = fc s_seq /\
    clock_reads s' = clock_reads s_seq.
Proof.
  intros Hmu Hrun Hfin.
  destruct (finished_serialized clk threads s0 s' pool' Hmu Hrun Hfin)
    as (order & rest & s_seq & Hmerge & Hnil & Hseq & Hfc & Hclock).
  assert (Hinter : interleaving threads order).
  { exists rest. split; [exact Hmerge | exact Hnil]. }
  exists order, s_seq.
  split; [exact Hinter |].
  split; [now apply interleaving_perm |].
  split; [exact Hseq |].
  split; [exact Hfc | exact Hclock].
Qed.

(** X2: goroutines calling the methods of one FloatCounter never all
    wait: as long as one of them has not returned, one of them can take a
    turn (no deadlock, and no [Unlock] of a mutex that is not held); all
    have returned after as many turns as their calls have operations, and
    no run is longer. *)
Theorem FloatCounter_no_deadlock (clk : Clock) (threads : list (list call))
    (s0 : state) (k : nat) (cfg' : list (prog event unit) * state) :
  mu (fc s0) = false ->
  nsteps (pool_step_opt (handle clk)) k (goroutine <$> threads, s0) cfg' ->
  (k <= total_ops threads)%nat /\
  (Forall finished cfg'.1 <-> k = total_ops threads) /\
  ((k < total_ops threads)%nat ->
   exists cfg'', pool_step_opt (handle clk) cfg' cfg'').
Proof.
  intros Hmu Hrun.
  destruct (nsteps_opt_ops_left (handle clk) k _ _ _ Hrun
              (goroutines_ops_left threads)) as [Hle Hleft].
  split; [exact Hle |].
  split.
  - rewrite (pool_ops_left_finished cfg'.1 _ Hleft). lia.
  - intros Hlt.
    apply (serialized_progress clk threads s0 cfg'
             (total_ops threads - k - 1)).
    + apply reachable_serialized; [exact Hmu |].
      eapply rtc_nsteps_2, Hrun.
    + replace (S (total_ops threads - k - 1)) with (total_ops threads - k)%nat
        by lia.
      exact Hleft.
Qed.

(** X3: of goroutines calling the methods of one FloatCounter, at most one
    at a time is between [Lock] and [Unlock] (at a plain access to [n] or
    [lastWriteTime], at the reading of the clock or at [Unlock]), it is
    then that the mutex is held, and the mutex is not held otherwise. *)
Theorem FloatCounter_mutual_exclusion (clk : Clock)
    (threads : list (list call)) (s0 s : state)
    (pool : list (prog event unit)) :
  mu (fc s0) = false ->
  rtc (pool_step_opt (handle clk)) (goroutine <$> threads, s0) (pool, s) ->
  (forall i p, pool !! i = Some p -> inside p ->
     mu (fc s) = true /\
     forall j q, pool !! j = Some q -> inside q -> j = i) /\
  (mu (fc s) = true -> exists i p, pool !! i = Some p /\ inside p).
Proof.
  intros Hmu Hrun.
  destruct (reachable_serialized clk threads s0 _ Hmu Hrun)
    as (ths & order & s_seq & Hpool & _ & _ & _ & _ & Hphase).
  simpl in *. subst pool.
  assert (Hlook : forall i p, (thread_of <$> ths) !! i = Some p ->
            exists tl ks, ths !! i = Some (tl, ks) /\ p = thread_of (tl, ks)).
  { intros i p Hi. rewrite list_lookup_fmap in Hi.
    destruct (ths !! i) as [[tl ks] |]; [| discriminate].
    injection Hi as <-. eauto. }
  destruct Hphase as [(Hmus & Htrail & _) |
    (Hmus & i0 & p0 & ks0 & s_end & Hi0 & Hhold & Hothers & _)].
  - split; [| congruence].
    intros i p Hi Hin. exfalso.
    destruct (Hlook i p Hi) as (tl & ks & Hth & ->).
    apply (trailing_not_inside tl ks); [| exact Hin].
    apply (Forall_lookup_1 _ _ _ _ Htrail Hth).
  - assert (Honly : forall i p, (thread_of <$> ths) !! i = Some p ->
              inside p -> i = i0).
    { intros i p Hi Hin.
      destruct (decide (i = i0)) as [-> | Hne]; [reflexivity |].
      exfalso.
      destruct (Hlook i p Hi) as (tl & ks & Hth & ->).
      apply (trailing_not_inside tl ks); [| exact Hin].
      apply (Hothers i _ Hne Hth). }
    split.
    + intros i p Hi Hin. split; [exact Hmus |].
      intros j q Hj Hq.
      rewrite (Honly i p Hi Hin), (Honly j q Hj Hq). reflexivity.
    + intros _. exists i0, (thread_of (p0, ks0)).
      split; [now rewrite list_lookup_fmap, Hi0 |].
      now apply holder_inside.
Qed.

(** X4: with a clock that never goes back and a timestamp that does not
    start ahead of it, the timestamp of a FloatCounter never goes back
    and is never ahead of the clock, whatever the order in which
    goroutines calling its methods take their turns. *)
Theorem FloatCounter_timestamp_monotone (clk : Clock)
    (threads : list (list call)) (s0 : state)
    (cfg cfg' : list (prog event unit) * state) :
  monotone clk ->
  lastWriteTime (fc s0) <= clk (clock_reads s0) ->
  mu (fc s0) = false ->
  rtc (pool_step_opt (handle clk)) (goroutine <$> threads, s0) cfg ->
  rtc (pool_step_opt (handle clk)) cfg cfg' ->
  lastWriteTime (fc cfg.2) <= lastWriteTime (fc cfg'.2) /\
  lastWriteTime (fc cfg'.2) <= clk (clock_reads cfg'.2).
Proof.
  intros Hclk Hna Hmu Hrun Hrun'.
  assert (Hok : clock_ok clk s0) by (split; assumption).
  pose proof (reachable_serialized clk threads s0 cfg Hmu Hrun) as Hinv.
  destruct (rtc_serialized clk threads s0 cfg cfg' Hrun' Hinv) as [Hinv' Hle].
  split; [apply Hle, Hok |].
  destruct Hinv' as (_ & _ & _ & _ & _ & _ & _ & Hna' & _).
  apply Hna', Hok.
Qed.

(** X5: when goroutines have made at least one call between them on a
    FloatCounter and all have returned, its timestamp is what the clock
    returned the last time it was read. *)
Theorem FloatCounter_timestamp_latest (clk : Clock)
    (threads : list (list call)) (s0 s' : state)
    (pool' : list (prog event unit)) :
  mu (fc s0) = false ->
  concat threads <> [] ->
  rtc (pool_step_opt (handle clk)) (goroutine <$> threads, s0) (pool', s') ->
  Forall finished pool' ->
  exists r : nat,
    clock_reads s' = S r /\ lastWriteTime (fc s') = clk r.
Proof.
  intros Hmu Hne Hrun Hfin.
  destruct (finished_serialized clk threads s0 s' pool' Hmu Hrun Hfin)
    as (order & rest & s_seq & Hmerge & Hnil & Hseq & -> & ->).
  assert (Hperm : order ≡ₚ concat threads).
  { apply interleaving_perm. exists rest. auto. }
  destruct (exists_last (l := order)) as (l & k & ->).
  { intros ->. apply Hne. symmetry in Hperm.
    now apply Permutation_nil_r in Hperm. }
  apply (run_goroutine_latest clk l k s0 s_seq Hmu Hseq).
Qed.

(** The example goroutines taking turns round robin, for [rounds] rounds. *)
Lemma example_run (rounds : nat) :
  rtc (pool_step_opt (handle example_clock))
    (goroutine <$> example_threads, init new)
    ((schedule_opt (handle example_clock) (round_robin 3 rounds)
        (goroutine <$> example_threads, init new)).1,
     (schedule_opt (handle example_clock) (round_robin 3 rounds)
        (goroutine <$> example_threads, init new)).2).
Proof.
  rewrite <- surjective_pairing. apply schedule_opt_rtc.
Qed.

Lemma FloatCounter_serializable_witness :
  mu (fc (init new)) = false /\
  Forall finished
    (schedule_opt (handle example_clock) (round_robin 3 28)
       (goroutine <$> example_threads, init new)).1 /\
  exists (order : list call) (s_seq : state),
    interleaving example_threads order /\
    run_opt (handle example_clock) (goroutine order) (init new)
      = Some (tt, s_seq) /\
    fc (schedule_opt (handle example_clock) (round_robin 3 28)
          (goroutine <$> example_threads, init new)).2 = fc s_seq.
Proof.
  assert (Hfin : Forall finished
            (schedule_opt (handle example_clock) (round_robin 3 28)
               (goroutine <$> example_threads, init new)).1).
  { vm_compute. repeat constructor. }
  split; [reflexivity |].
  split; [exact Hfin |].
  destruct (FloatCounter_serializable example_clock example_threads
              (init new) _ _ eq_refl (example_run 28) Hfin)
    as (order & s_seq & Hinter & _ & Hseq & Hfc & _).
  exists order, s_seq. auto.
Defined.


Lemma FloatCounter_no_deadlock_witness :
  mu (fc (init new)) = false /\
  turns_taken (handle example_clock) (round_robin 3 28)
    (goroutine <$> example_threads, init new) = 28%nat /\
  (Forall finished
     (schedule_opt (handle example_clock) (round_robin 3 28)
        (goroutine <$> example_threads, init new)).1
   <-> 28%nat = total_ops example_threads).
Proof.
  split; [reflexivity |].
  split; [vm_compute; reflexivity |].
  pose proof (schedule_opt_nsteps (handle example_clock) (round_robin 3 28)
                (goroutine <$> example_threads, init new)) as Hrun.
  replace (turns_taken _ _ _) with 28%nat in Hrun by (vm_compute; reflexivity).
  exact (proj1 (proj2 (FloatCounter_no_deadlock example_clock example_threads
                         (init new) 28 _ eq_refl Hrun))).
Defined.

Lemma FloatCounter_mutual_exclusion_witness :
  mu (fc (init new)) = false /\
  mu (fc (schedule_opt (handle example_clock) (round_robin 3 9)
            (goroutine <$> example_threads, init new)).2) = true /\
  exists i p,
    (schedule_opt (handle example_clock) (round_robin 3 9)
       (goroutine <$> example_threads, init new)).1 !! i = Some p /\
    inside p.
Proof.
  split; [reflexivity |].
  split; [vm_compute; reflexivity |].
  apply (proj2 (FloatCounter_mutual_exclusion example_clock example_threads
                  (init new) _ _ eq_refl (example_run 9))).
  vm_compute. reflexivity.
Defined.

Lemma example_clock_monotone : monotone example_clock.
Proof. intros i j Hij. unfold example_clock. lia. Qed.

Lemma FloatCounter_timestamp_monotone_witness :
  monotone example_clock /\
  lastWriteTime (fc (init new)) <= example_clock 0%nat /\
  lastWriteTime
    (fc (schedule_opt (handle example_clock) (round_robin 3 9)
           (goroutine <$> example_threads, init new)).2)
  <= lastWriteTime
       (fc (schedule_opt (handle example_clock) (round_robin 3 19)
              (schedule_opt (handle example_clock) (round_robin 3 9)
                 (goroutine <$> example_threads, init new))).2).
Proof.
  assert (H0 : lastWriteTime (fc (init new)) <= example_clock 0%nat).
  { vm_compute. discriminate. }
  split; [exact example_clock_monotone |].
  split; [exact H0 |].
  refine (proj1 (FloatCounter_timestamp_monotone example_clock example_threads
                   (init new) _ _ example_clock_monotone H0 eq_refl _ _)).
  - rewrite (surjective_pairing (schedule_opt _ (round_robin 3 9) _)).
    apply example_run.
  - apply schedule_opt_rtc.
Defined.

Lemma FloatCounter_timestamp_latest_witness :
  mu (fc (init new)) = false /\
  concat example_threads <> [] /\
  exists r : nat,
    clock_reads
      (schedule_opt (handle example_clock) (round_robin 3 28)
         (goroutine <$> example_threads, init new)).2 = S r /\
    lastWriteTime
      (fc (schedule_opt (handle example_clock) (round_robin 3 28)
             (goroutine <$> example_threads, init new)).2)
    = example_clock r.
Proof.
  assert (Hne : concat example_threads <> []) by discriminate.
  split; [reflexivity |].
  split; [exact Hne |].
  apply (FloatCounter_timestamp_latest example_clock example_threads
           (init new) _ _ eq_refl Hne (example_run 28)).
  vm_compute. repeat constructor.
Defined.

End FloatCounterConcurrent.

(** ** Counter, goroutines that store the time or the value *)

Module CounterRaces.

Import Prog Counter.

Local Open Scope prog_scope.

(** X6: on a Counter the timestamp can go back although the clock does
    not: of two goroutines that each call one of [Dec], [Add], [AddInt64]
    and [Set], the one that read the clock first may store its time last,
    over the later time of the other. *)
Theorem Counter_timestamp_goes_back (clk : Clock) (s : state)
    (k1 k2 : call) :
  stamps k1 -> stamps k2 ->
  exists mid fin : list (prog event unit) * state,
    rtc (pool_step (handle clk)) (map goroutine [[k1]; [k2]], s) mid /\
    rtc (pool_step (handle clk)) mid fin /\
    Forall finished fin.1 /\
    lastWriteTime (c mid.2) = clk (S (clock_reads s)) /\
    lastWriteTime (c fin.2) = clk (clock_reads s).
Proof.
  intros H1 H2.
  exists (schedule (handle clk) [0; 0; 1; 1; 1]%nat
            (map goroutine [[k1]; [k2]], s)).
  exists (schedule (handle clk) [0]%nat
            (schedule (handle clk) [0; 0; 1; 1; 1]%nat
               (map goroutine [[k1]; [k2]], s))).
  split; [apply schedule_rtc |].
  split; [apply schedule_rtc |].
  destruct k1; simpl in H1; try contradiction;
    destruct k2; simpl in H2; try contradiction;
    simpl; repeat split; repeat constructor.
Qed.

Lemma Counter_timestamp_goes_back_witness :
  stamps CallDec /\ stamps (CallSet 9) /\
  exists mid fin : list (prog event unit) * state,
    rtc (pool_step (handle example_clock))
      (map goroutine [[CallDec]; [CallSet 9]], init new) mid /\
    rtc (pool_step (handle example_clock)) mid fin /\
    Forall finished fin.1 /\
    lastWriteTime (c fin.2) < lastWriteTime (c mid.2).
Proof.
  split; [exact I |]. split; [exact I |].
  destruct (Counter_timestamp_goes_back example_clock (init new)
              CallDec (CallSet 9) I I)
    as (mid & fin & Hmid & Hfin & Hdone & Hm & Hf).
  exists mid, fin.
  repeat (split; [assumption |]).
  rewrite Hm, Hf. reflexivity.
Defined.

Lemma wrap_succ_ne (v : Z) : U64.in_range v -> U64.wrap (v + 1) <> v.
Proof.
  unfold U64.in_range, U64.wrap, U64.modulus. intros Hv.
  destruct (Z.eq_dec v (2 ^ 64 - 1)) as [-> | Hne].
  - discriminate.
  - rewrite Z.mod_small; lia.
Qed.

(** X9: [Set] does not add up with [Inc]: when one goroutine calls [Inc]
    and another [Set(v)], the counter ends at [v] if [Inc] comes first and
    at [v + 1] (modulo 2^64) if it comes after the store of [Set], and
    these are not the same value. *)
Theorem Counter_Set_races_with_Inc (clk : Clock) (s : state) (v : Z) :
  U64.in_range v ->
  exists fin1 fin2 : list (prog event unit) * state,
    rtc (pool_step (handle clk)) (map goroutine [[CallInc]; [CallSet v]], s)
      fin1 /\
    Forall finished fin1.1 /\
    n (c fin1.2) = v /\
    rtc (pool_step (handle clk)) (map goroutine [[CallInc]; [CallSet v]], s)
      fin2 /\
    Forall finished fin2.1 /\
    n (c fin2.2) = (v + 1) mod 2 ^ 64 /\
    n (c fin1.2) <> n (c fin2.2).
Proof.
  intros Hv.
  exists (schedule (handle clk) [0; 1; 1; 1]%nat
            (map goroutine [[CallInc]; [CallSet v]], s)).
  exists (schedule (handle clk) [1; 0; 1; 1]%nat
            (map goroutine [[CallInc]; [CallSet v]], s)).
  split; [apply schedule_rtc |].
  split; [simpl; repeat constructor |].
  split; [reflexivity |].
  split; [apply schedule_rtc |].
  split; [simpl; repeat constructor |].
  split; [reflexivity |].
  simpl. intros H. symmetry in H. revert H. now apply wrap_succ_ne.
Qed.

Lemma Counter_Set_races_with_Inc_witness :
  U64.in_range 7 /\
  exists fin1 fin2 : list (prog event unit) * state,
    rtc (pool_step (handle example_clock))
      (map goroutine [[CallInc]; [CallSet 7]], init new) fin1 /\
    n (c fin1.2) = 7 /\
    rtc (pool_step (handle example_clock))
      (map goroutine [[CallInc]; [CallSet 7]], init new) fin2 /\
    n (c fin2.2) = 8.
Proof.
  assert (Hv : U64.in_range 7).
  { unfold U64.in_range, U64.modulus. lia. }
  split; [exact Hv |].
  destruct (Counter_Set_races_with_Inc example_clock (init new) 7 Hv)
    as (fin1 & fin2 & H1 & _ & Hn1 & H2 & _ & Hn2 & _).
  exists fin1, fin2. auto.
Defined.

(** *** The timestamp is never ahead of the clock *)

Lemma stamped_by_bind (p q : prog event unit) (t : option Z) :
  stamped_by p t -> (forall t', stamped_by q t') -> stamped_by (p ;; q) t.
Proof.
  revert t.
  induction p as [a | X e k IH]; intros t; simpl.
  - intros _ Hq. apply Hq.
  - destruct e; simpl; intros Hp Hq; try (intros x; apply IH; auto).
    destruct Hp as [-> Hp]. split; [reflexivity |].
    intros x. apply IH; auto.
Qed.

Lemma stamped_by_call (k : call) (t : option Z) : stamped_by (call_prog k) t.
Proof. destruct k; simpl; intros; repeat split; intros; exact I. Qed.

Lemma stamped_by_goroutine (ks : list call) (t : option Z) :
  stamped_by (goroutine ks) t.
Proof.
  revert t.
  induction ks as [| k ks IH]; intros t; [exact I |].
  apply (stamped_by_bind (call_prog k) (goroutine ks));
    [apply stamped_by_call | exact IH].
Qed.

Lemma none_ahead_init (clk : Clock) (threads : list (list call))
    (s : state) :
  not_ahead clk s -> none_ahead clk (map goroutine threads, s).
Proof.
  intros Hs. split; [exact Hs |].
  exists (map (fun _ => None) threads). simpl. split.
  - induction threads as [| ks threads IH]; simpl; constructor;
      [apply stamped_by_goroutine | exact IH].
  - induction threads as [| ks threads IH]; simpl; constructor;
      [intros v Hv; discriminate Hv | exact IH].
Qed.

Lemma step_none_ahead (clk : Clock)
    (cfg cfg' : list (prog event unit) * state) :
  monotone clk ->
  pool_step (handle clk) cfg cfg' ->
  none_ahead clk cfg -> none_ahead clk cfg'.
Proof.
  intros Hclk Hstep (Hna & ts & Hst & Hts).
  destruct Hstep as [i pool p p' s s' Hi Hp]. simpl in *.
  unfold not_ahead in *.
  assert (Hs := Hclk (clock_reads s) (S (clock_reads s))
                  (Nat.le_succ_diag_r _)).
  destruct (Forall2_lookup_l _ _ _ _ _ Hst Hi) as (t & Hti & Hpt).
  assert (Ht : forall v, t = Some v -> v <= clk (clock_reads s)).
  { rewrite Forall_lookup in Hts. apply (Hts i t Hti). }
  destruct p as [a | X e k]; simpl in Hp; [discriminate |].
  destruct e; simpl in *; injection Hp as <- <-; simpl.
  - (* AddUint64 *)
    split; [exact Hna |]. exists (<[i := t]> ts).
    split; [apply Forall2_insert; auto |].
    apply Forall_insert; auto.
  - (* LoadUint64 *)
    split; [exact Hna |]. exists (<[i := t]> ts).
    split; [apply Forall2_insert; auto |].
    apply Forall_insert; auto.
  - (* StoreUint64 *)
    split; [exact Hna |]. exists (<[i := t]> ts).
    split; [apply Forall2_insert; auto |].
    apply Forall_insert; auto.
  - (* StoreInt64 lastWriteTime *)
    destruct Hpt as [-> Hpt].
    split; [apply Ht; reflexivity |]. exists (<[i := Some v]> ts).
    split; [apply Forall2_insert; auto |].
    apply Forall_insert; auto.
  - (* LoadInt64 lastWriteTime *)
    split; [exact Hna |]. exists (<[i := t]> ts).
    split; [apply Forall2_insert; auto |].
    apply Forall_insert; auto.
  - (* TimeNowUnix *)
    split; [unfold not_ahead; simpl; lia |].
    exists (<[i := Some (clk (clock_reads s))]> ts).
    split; [apply Forall2_insert; auto |].
    apply Forall_insert.
    + eapply Forall_impl; [exact Hts |].
      intros t' Ht' v Hv. specialize (Ht' v Hv). simpl in *. lia.
    + intros v [= <-]. exact Hs.
  - (* Write *)
    split; [exact Hna |]. exists (<[i := t]> ts).
    split; [apply Forall2_insert; auto |].
    apply Forall_insert; auto.
Qed.

(** X10: with a clock that never goes back and a timestamp that does not
    start ahead of it, the timestamp of a Counter is at no time ahead of
    the clock, whatever goroutines call and in whatever order they take
    their turns. *)
Theorem Counter_timestamp_not_ahead (clk : Clock)
    (threads : list (list call)) (s : state)
    (cfg : list (prog event unit) * state) :
  monotone clk ->
  not_ahead clk s ->
  rtc (pool_step (handle clk)) (map goroutine threads, s) cfg ->
  lastWriteTime (c cfg.2) <= clk (clock_reads cfg.2).
Proof.
  intros Hclk Hs Hrun.
  assert (Hinv : none_ahead clk cfg).
  { pose proof (none_ahead_init clk threads s Hs) as Hinit.
    revert Hinit.
    induction Hrun as [cfg | cfg1 cfg2 cfg3 Hstep _ IH]; [tauto |].
    intros H. apply IH. now apply (step_none_ahead clk cfg1 cfg2). }
  exact (proj1 Hinv).
Qed.

Lemma Counter_timestamp_not_ahead_witness :
  monotone example_clock /\
  not_ahead example_clock (init new) /\
  lastWriteTime
    (c (schedule (handle example_clock) [1; 0; 1; 1; 0; 1; 0; 2; 2; 2]%nat
          (map goroutine
             [[CallDec]; [CallInc; CallSet 7]; [CallAdd 5; CallGet]],
           init new)).2)
  <= example_clock
       (clock_reads
          (schedule (handle example_clock)
             [1; 0; 1; 1; 0; 1; 0; 2; 2; 2]%nat
             (map goroutine
                [[CallDec]; [CallInc; CallSet 7]; [CallAdd 5; CallGet]],
              init new)).2).
Proof.
  assert (Hclk : monotone example_clock).
  { intros i j Hij. unfold example_clock. lia. }
  assert (H0 : not_ahead example_clock (init new)).
  { vm_compute. discriminate. }
  split; [exact Hclk |]. split; [exact H0 |].
  apply (Counter_timestamp_not_ahead example_clock
           [[CallDec]; [CallInc; CallSet 7]; [CallAdd 5; CallGet]]
           (init new) _ Hclk H0).
  apply schedule_rtc.
Defined.

End CounterRaces.

(** ** FloatCounter, what the methods need and what they are *)

Module FloatCounterMethods.

Import Prog FloatCounter.

Local Open Scope prog_scope.

(** X7: [getLastWriteTime] and [metricType] of FloatCounter return
    whether the mutex is held or not and change nothing ([metricType]
    returns [counter], as that of Counter does); [Add], [Sub], [Get],
    [Set] and [marshalTo] never return when called with the mutex held,
    and called with the mutex free they return with the mutex free. *)
Theorem FloatCounter_who_waits (clk : Clock) (s : state)
    (t : Counter.state) :
  run_opt (handle clk) getLastWriteTime s = Some (lastWriteTime (fc s), s) /\
  run_opt (handle clk) metricType s = Some ("counter"%string, s) /\
  run (Counter.handle clk) Counter.metricType t = ("counter"%string, t) /\
  forall k : call,
    (mu (fc s) = true -> run_opt (handle clk) (call_prog k) s = None) /\
    (mu (fc s) = false ->
     exists s' : state,
       run_opt (handle clk) (call_prog k) s = Some (tt, s') /\
       mu (fc s') = false).
Proof.
  repeat split.
  - apply FloatCounterSpec.float_run_locked.
  - intros Hmu.
    destruct (FloatCounterSpec.float_run_call clk k s Hmu)
      as (s' & Hk & Hmu' & _).
    eauto.
Qed.

Lemma FloatCounter_who_waits_witness :
  run_opt (handle example_clock) (call_prog (CallAdd 1%float))
    (init {| mu := true; n := 0%float; lastWriteTime := 5 |}) = None /\
  run_opt (handle example_clock) getLastWriteTime
    (init {| mu := true; n := 0%float; lastWriteTime := 5 |})
  = Some (5, init {| mu := true; n := 0%float; lastWriteTime := 5 |}).
Proof.
  destruct (FloatCounter_who_waits example_clock
              (init {| mu := true; n := 0%float; lastWriteTime := 5 |})
              (Counter.init Counter.new))
    as (Hget & _ & _ & Hcalls).
  split; [| exact Hget].
  apply (proj1 (Hcalls (CallAdd 1%float))). reflexivity.
Defined.




End FloatCounterMethods.

(** ** Counter, methods that do the same *)

Module CounterMethods.

Import Prog Counter.

(** X11: [Dec] does what [Add(-1)] and [AddInt64(-1)] do: the same value,
    the same timestamp, the same use of the clock.  [Inc] leaves the value
    that [Add(1)] leaves, but unlike [Add(1)] it neither reads the clock
    nor stores a timestamp. *)
Theorem Dec_is_Add_minus_1 (clk : Clock) (s : state) :
  run (handle clk) Dec s = run (handle clk) (Add (- 1)) s /\
  run (handle clk) Dec s = run (handle clk) (AddInt64 (- 1)) s /\
  n (c (run (handle clk) Inc s).2) = n (c (run (handle clk) (Add 1) s).2) /\
  clock_reads (run (handle clk) (Add 1) s).2
    = S (clock_reads (run (handle clk) Inc s).2).
Proof.
  rewrite CounterSpec.run_Dec, CounterSpec.run_Add, CounterSpec.run_AddInt64.
  rewrite CounterSpec.run_Inc.
  repeat split.
Qed.

End CounterMethods.
